(** * Closer: a registry of shutdown callbacks

    Shallow embedding of the Go package [closer] in its two versions,
    [src/closer.go] (module [Root]) and [src/closer/closer.go] (module [Sub]),
    and the properties of its operations [Add], [Close], [CloseOne], [Size]
    and [reset].

    Modelling choices.
    - A Go [int] is a 64-bit signed integer: a [Z] with the wrap-around of
      [++] and [-] written out ([wrap]).
    - An [error] is [nil] ([None]) or a value whose [Error()] text is the
      carried string.
    - A callback [Func] is opaque code with effects: a transition on an
      abstract [World] that also yields an [error].  One invocation is one
      atomic transition.
    - Every method is written in a small monad over the machine state
      (the [Closer] struct, the world, the event trace).  A run ends
      normally ([Done]), panics ([Panic]) or blocks for ever ([Blocked]).
    - The trace records every mutex operation, every read and write of a
      field of the struct and every callback invocation with its result.
    - Goroutines started by [Close] run their callback in an order chosen by
      the scheduler; the scheduler is an explicit [oracle]. *)

From Stdlib Require Import ZArith String Ascii List Bool Lia Permutation.
Import ListNotations.

Local Open Scope Z_scope.

(** ** Go runtime notions *)

Definition int_min : Z := - 2 ^ 63.
Definition int_max : Z := 2 ^ 63 - 1.

(** Two's complement wrap-around of a 64-bit signed [int]. *)
Definition wrap (z : Z) : Z := (z + 2 ^ 63) mod 2 ^ 64 - 2 ^ 63.

(** [nil] is [None]; [Some msg] is an error whose [Error()] is [msg]. *)
Definition error : Type := option string.

(** [fmt.Errorf("%s: %v", op, msg)] *)
Definition Errorf (op msg : string) : error :=
  Some (op ++ ": " ++ msg)%string.

(** [strings.Join(elems, sep)] *)
Fixpoint Join (elems : list string) (sep : string) : string :=
  match elems with
  | [] => EmptyString
  | x :: rest =>
      match rest with
      | [] => x
      | _ :: _ => (x ++ sep ++ Join rest sep)%string
      end
  end.

(** [strings.Contains(s, substr)], the test behind [require.ErrorContains]. *)
Fixpoint Contains (s substr : string) : bool :=
  String.prefix substr s ||
  match s with
  | EmptyString => false
  | String _ s' => Contains s' substr
  end.

(** [const ErrAllServicesClosed] (both files). *)
Definition ErrAllServicesClosed : string := "all services closed".

(** The fields of [Closer] guarded by [mu]. *)
Inductive field : Type := Ffuncs | Fsize | Fi.

Inductive event : Type :=
| EvLock
| EvUnlock
| EvRead (f : field)
| EvWrite (f : field)
| EvCall (slot : nat) (res : error).

(** A channel of errors: the queue of the values sent and not yet received. *)
Definition chan : Type := list error.

(** ** The machine *)

Section Machine.

Variables Ctx World : Type.

(** [type Func func(ctx context.Context) error] *)
Definition Func : Type := Ctx -> World -> World * error.

(** [type Closer struct { mu; funcs; size; i }]; [mu] is [true] while the
    mutex is held. *)
Record Closer : Type := mkCloser {
  mu : bool;
  funcs : list Func;
  size : Z;
  i : Z
}.

(** [var cl closer.Closer]: the zero value. *)
Definition zero : Closer := mkCloser false [] 0 0.

Record State : Type := mkState {
  cl : Closer;
  world : World;
  trace : list event
}.

Inductive Outcome (A : Type) : Type :=
| Done (a : A) (s : State)
| Panic (msg : string) (s : State)
| Blocked (s : State).

Arguments Done {A} a s.
Arguments Panic {A} msg s.
Arguments Blocked {A} s.

Definition M (A : Type) : Type := State -> Outcome A.

Definition ret {A} (a : A) : M A := fun s => Done a s.

Definition bind {A B} (m : M A) (k : A -> M B) : M B :=
  fun s =>
    match m s with
    | Done a s' => k a s'
    | Panic msg s' => Panic msg s'
    | Blocked s' => Blocked s'
    end.

Definition panic {A} (msg : string) : M A := fun s => Panic msg s.

Definition emit (e : event) (s : State) : State :=
  mkState (cl s) (world s) (trace s ++ [e]).

Definition with_cl (c : Closer) (s : State) : State :=
  mkState c (world s) (trace s).

(** [c.mu.Lock()]: blocks while the mutex is held. *)
Definition Lock : M unit :=
  fun s =>
    let c := cl s in
    if mu c then Blocked s
    else Done tt (emit EvLock (with_cl (mkCloser true (funcs c) (size c) (i c)) s)).

(** [c.mu.Unlock()]: a fatal error on a mutex that is not held. *)
Definition Unlock : M unit :=
  fun s =>
    let c := cl s in
    if mu c
    then Done tt (emit EvUnlock (with_cl (mkCloser false (funcs c) (size c) (i c)) s))
    else Panic "sync: unlock of unlocked mutex" s.

(** [defer d] in front of [body]: [d] runs when [body] returns or panics. *)
Definition with_defer {A} (d : M unit) (body : M A) : M A :=
  fun s =>
    match body s with
    | Done a s' =>
        match d s' with
        | Done _ s'' => Done a s''
        | Panic msg s'' => Panic msg s''
        | Blocked s'' => Blocked s''
        end
    | Panic msg s' =>
        match d s' with
        | Done _ s'' => Panic msg s''
        | Panic msg' s'' => Panic msg' s''
        | Blocked s'' => Blocked s''
        end
    | Blocked s' => Blocked s'
    end.

Definition get_funcs : M (list Func) :=
  fun s => Done (funcs (cl s)) (emit (EvRead Ffuncs) s).
Definition get_size : M Z :=
  fun s => Done (size (cl s)) (emit (EvRead Fsize) s).
Definition get_i : M Z :=
  fun s => Done (i (cl s)) (emit (EvRead Fi) s).

Definition set_funcs (fs : list Func) : M unit :=
  fun s =>
    let c := cl s in
    Done tt (emit (EvWrite Ffuncs) (with_cl (mkCloser (mu c) fs (size c) (i c)) s)).
Definition set_size (n : Z) : M unit :=
  fun s =>
    let c := cl s in
    Done tt (emit (EvWrite Fsize) (with_cl (mkCloser (mu c) (funcs c) n (i c)) s)).
Definition set_i (n : Z) : M unit :=
  fun s =>
    let c := cl s in
    Done tt (emit (EvWrite Fi) (with_cl (mkCloser (mu c) (funcs c) (size c) n) s)).

(** [fs[k]]: panics out of range. *)
Definition index (fs : list Func) (k : Z) : M Func :=
  if (0 <=? k) && (k <? Z.of_nat (length fs))
  then match nth_error fs (Z.to_nat k) with
       | Some f => ret f
       | None => panic "index out of range"
       end
  else panic "index out of range".

(** [fs[k:]]: panics out of range. *)
Definition slice_from (fs : list Func) (k : Z) : M (list Func) :=
  if (0 <=? k) && (k <=? Z.of_nat (length fs))
  then ret (skipn (Z.to_nat k) fs)
  else panic "slice bounds out of range".

(** [make([]T, 0, n)] and [make(chan T, n)]: panic with [msg] on a negative
    capacity (the memory limit is not modelled). *)
Definition make_cap (msg : string) (n : Z) : M unit :=
  if n <? 0 then panic msg else ret tt.

(** [f(ctx)]: one atomic transition of the world, logged with the slot of
    [f] in [funcs] and its result. *)
Definition call (slot : nat) (f : Func) (ctx : Ctx) : M error :=
  fun s =>
    let r := f ctx (world s) in
    Done (snd r) (mkState (cl s) (fst r) (trace s ++ [EvCall slot (snd r)])).

End Machine.

Arguments Done {Ctx World A} a s.
Arguments Panic {Ctx World A} msg s.
Arguments Blocked {Ctx World A} s.
Arguments mkCloser {Ctx World} mu funcs size i.
Arguments mkState {Ctx World} cl world trace.
Arguments mu {Ctx World} c.
Arguments funcs {Ctx World} c.
Arguments size {Ctx World} c.
Arguments i {Ctx World} c.
Arguments cl {Ctx World} s.
Arguments world {Ctx World} s.
Arguments trace {Ctx World} s.
Arguments zero {Ctx World}.
Arguments ret {Ctx World A} a s.
Arguments bind {Ctx World A B} m k s.
Arguments panic {Ctx World A} msg s.
Arguments Lock {Ctx World} s.
Arguments Unlock {Ctx World} s.
Arguments with_defer {Ctx World A} d body s.
Arguments get_funcs {Ctx World} s.
Arguments get_size {Ctx World} s.
Arguments get_i {Ctx World} s.
Arguments set_funcs {Ctx World} fs s.
Arguments set_size {Ctx World} n s.
Arguments set_i {Ctx World} n s.
Arguments index {Ctx World} fs k s.
Arguments slice_from {Ctx World} fs k s.
Arguments make_cap {Ctx World} msg n s.
Arguments call {Ctx World} slot f ctx s.
Arguments emit {Ctx World} e s.
Arguments with_cl {Ctx World} c s.

Declare Scope go_scope.
Delimit Scope go_scope with go.

Notation "x <- m ;; k" := (bind m (fun x => k))
  (at level 61, m at next level, right associativity) : go_scope.
Notation "m ;;; k" := (bind m (fun _ => k))
  (at level 61, right associativity) : go_scope.

Local Open Scope go_scope.

(** ** Operations common to both files

    [Add], [CloseOne] and [Size] are the same text in [src/closer.go] and in
    [src/closer/closer.go]. *)

Section Common.

Context {Ctx World : Type}.

(** [func (c *Closer) Add(f Func)] *)
Definition Add (f : Func Ctx World) : M Ctx World unit :=
  Lock ;;;
  with_defer Unlock
    (fs <- get_funcs ;;
     set_funcs (fs ++ [f]) ;;;
     n <- get_size ;;
     set_size (wrap (n + 1))).

(** [func (c *Closer) CloseOne(ctx context.Context) error] *)
Definition CloseOne (ctx : Ctx) : M Ctx World error :=
  let op := "closer.CloseOne"%string in
  Lock ;;;
  prev <- get_i ;;
  err <- with_defer Unlock
           (ci <- get_i ;;
            n <- get_size ;;
            if ci >=? n
            then ret (Errorf op ErrAllServicesClosed)
            else (cj <- get_i ;;
                  set_i (wrap (cj + 1)) ;;;
                  ret None)) ;;
  match err with
  | Some _ => ret err
  | None =>
      fs <- get_funcs ;;
      f <- index fs prev ;;
      call (Z.to_nat prev) f ctx
  end.

(** [func (c *Closer) Size() int] *)
Definition Size : M Ctx World Z := get_size.

End Common.

(** ** [src/closer.go]: one goroutine and one channel per callback *)

(** The list without its element at position [n]. *)
Fixpoint remove_nth {A : Type} (n : nat) (l : list A) : list A :=
  match l with
  | [] => []
  | x :: l' =>
      match n with
      | O => l'
      | S n' => x :: remove_nth n' l'
      end
  end.

(** [l[n] = v]; the list is left as it is when [n] is out of range (the
    positions used below are in range). *)
Fixpoint set_nth {A : Type} (n : nat) (v : A) (l : list A) : list A :=
  match l with
  | [] => []
  | x :: l' =>
      match n with
      | O => v :: l'
      | S n' => x :: set_nth n' v l'
      end
  end.

(** [err.Error()] of every non-nil value of a channel, in order. *)
Definition messages (ch : chan) : list string :=
  flat_map (fun err : error => match err with Some m => [m] | None => [] end) ch.

Module Root.
Section Defs.

Context {Ctx World : Type}.

(** The goroutine started by [execF]: it runs [f], sends a non-nil result
    on its own channel (fresh, buffer 1: the send never blocks) and closes
    the channel.  Its value is the content of the closed channel. *)
Definition goroutine (ctx : Ctx) (slot : nat) (f : Func Ctx World)
  : M Ctx World chan :=
  err <- call slot f ctx ;;
  ret (match err with Some _ => [err] | None => [] end).

(** [func execF(ctx, f, wg) <-chan error]: the channel is made, the
    goroutine is started and left pending; [k] is the position of the
    channel in [fErrorChanels]. *)
Definition execF (k : nat) (f : Func Ctx World) : nat * Func Ctx World :=
  (k, f).

(** The loop over [c.funcs[c.i:]]: one pending goroutine per callback. *)
Definition range_execF (snapshot : list (Func Ctx World))
  : list (nat * Func Ctx World) :=
  map (fun kf => execF (fst kf) (snd kf))
      (combine (seq 0 (length snapshot)) snapshot).

(** [wg.Wait()]: returns when every pending goroutine has run.  At each
    step the scheduler picks one of the pending goroutines: the head of
    [oracle], modulo the number of pending ones (the first when [oracle]
    is used up). *)
Fixpoint Wait (fuel : nat) (oracle : list nat) (ctx : Ctx) (base : nat)
    (pending : list (nat * Func Ctx World)) (chans : list chan)
  : M Ctx World (list chan) :=
  match fuel, pending with
  | S fuel', t0 :: _ =>
      let p := Nat.modulo (hd 0%nat oracle) (length pending) in
      let t := nth p pending t0 in
      ch <- goroutine ctx (base + fst t)%nat (snd t) ;;
      Wait fuel' (tl oracle) ctx base (remove_nth p pending)
           (set_nth (fst t) ch chans)
  | _, _ => ret chans
  end.

(** The two nested [range] loops over the channels. *)
Definition collect (chans : list chan) : list string :=
  flat_map messages chans.

(** [func (c *Closer) Close(ctx context.Context) error] *)
Definition Close (oracle : list nat) (ctx : Ctx) : M Ctx World error :=
  let op := "closer.Close"%string in
  Lock ;;;
  with_defer Unlock
    (ci <- get_i ;;
     n <- get_size ;;
     if ci >=? n
     then ret (Errorf op ErrAllServicesClosed)
     else
       (n1 <- get_size ;;
        make_cap "makeslice: cap out of range" n1 ;;;
        n2 <- get_size ;;
        make_cap "makeslice: cap out of range" n2 ;;;
        fs <- get_funcs ;;
        cj <- get_i ;;
        snapshot <- slice_from fs cj ;;
        let pending := range_execF snapshot in
        let fErrorChanels := repeat ([] : chan) (length snapshot) in
        chans <- Wait (length pending) oracle ctx (Z.to_nat cj) pending
                      fErrorChanels ;;
        let fErrors := collect chans in
        n3 <- get_size ;;
        set_i n3 ;;;
        if 0 <? Z.of_nat (length fErrors)
        then ret (Errorf op (Join fErrors "; "))
        else ret None)).

End Defs.
End Root.

(** ** [src/closer/closer.go]: [execF] called in line, one shared channel *)

Module Sub.
Section Defs.

Context {Ctx World : Type}.

(** [errCh <- err] on a channel of capacity [cap]: blocks when the buffer
    is full (nobody receives while [Close] is in its loop). *)
Definition send (cap : Z) (errCh : chan) (err : error) : M Ctx World chan :=
  fun s =>
    if Z.of_nat (length errCh) <? cap
    then Done (errCh ++ [err]) s
    else Blocked s.

(** [func execF(ctx, f, wg, errCh)]: an ordinary call, no [go]. *)
Definition execF (ctx : Ctx) (slot : nat) (f : Func Ctx World) (cap : Z)
    (errCh : chan) : M Ctx World chan :=
  err <- call slot f ctx ;;
  match err with
  | Some _ => send cap errCh err
  | None => ret errCh
  end.

(** The loop over [c.funcs[c.i:]]. *)
Fixpoint range_execF (ctx : Ctx) (slot : nat) (snapshot : list (Func Ctx World))
    (cap : Z) (errCh : chan) : M Ctx World chan :=
  match snapshot with
  | [] => ret errCh
  | f :: rest =>
      errCh' <- execF ctx slot f cap errCh ;;
      range_execF ctx (S slot) rest cap errCh'
  end.

(** [for range length { select { case err := <-fErrChan: ...; default: } }] *)
Fixpoint collect (n : nat) (errCh : chan) (fErrors : list string)
  : list string :=
  match n with
  | O => fErrors
  | S n' =>
      match errCh with
      | err :: rest =>
          collect n' rest
            (match err with Some m => fErrors ++ [m] | None => fErrors end)
      | [] => collect n' [] fErrors
      end
  end.

(** [func (c *Closer) Close(ctx context.Context) error] *)
Definition Close (ctx : Ctx) : M Ctx World error :=
  let op := "closer.Close"%string in
  Lock ;;;
  with_defer Unlock
    (ci <- get_i ;;
     n <- get_size ;;
     if ci >=? n
     then ret (Errorf op ErrAllServicesClosed)
     else
       (n1 <- get_size ;;
        cj <- get_i ;;
        let length := wrap (n1 - cj) in
        make_cap "makechan: size out of range" length ;;;
        make_cap "makeslice: cap out of range" length ;;;
        fs <- get_funcs ;;
        ck <- get_i ;;
        snapshot <- slice_from fs ck ;;
        errCh <- range_execF ctx (Z.to_nat ck) snapshot length [] ;;
        let fErrors := collect (Z.to_nat length) errCh [] in
        n2 <- get_size ;;
        set_i n2 ;;;
        if 0 <? Z.of_nat (List.length fErrors)
        then ret (Errorf op (Join fErrors "; "))
        else ret None)).

(** [func (c *Closer) reset()] *)
Definition reset : M Ctx World unit :=
  Lock ;;;
  set_i 0 ;;;
  Unlock.

End Defs.
End Sub.

(** ** Specification vocabulary *)

(** The callback invocations of a trace: slot and result, in order. *)
Definition calls_of (tr : list event) : list (nat * error) :=
  flat_map (fun ev => match ev with EvCall slot res => [(slot, res)] | _ => [] end) tr.

(** The text of a failure; nothing for a success. *)
Definition msg_of (res : error) : list string :=
  match res with Some m => [m] | None => [] end.

(** The failure texts that the invocations of [slot] produced. *)
Definition by_slot (calls : list (nat * error)) (slot : nat) : list string :=
  flat_map (fun r => if Nat.eqb (fst r) slot then msg_of (snd r) else []) calls.

(** The failure texts of [calls], by increasing slot from [lo], [k] slots. *)
Definition in_slot_order (calls : list (nat * error)) (lo k : nat) : list string :=
  flat_map (by_slot calls) (seq lo k).

(** The number of failed invocations. *)
Definition failures (calls : list (nat * error)) : nat :=
  length (filter (fun r => match snd r with Some _ => true | None => false end) calls).

(** Is every read and write of a field made while the mutex is held?
    [held] is the state of the mutex before the first event. *)
Fixpoint guarded (held : bool) (tr : list event) : bool :=
  match tr with
  | [] => true
  | EvLock :: tr' => guarded true tr'
  | EvUnlock :: tr' => guarded false tr'
  | EvRead _ :: tr' => held && guarded held tr'
  | EvWrite _ :: tr' => held && guarded held tr'
  | EvCall _ _ :: tr' => guarded held tr'
  end.

(** The order in which [Root.Wait] runs the pending goroutines. *)
Fixpoint schedule {A : Type} (fuel : nat) (oracle : list nat) (pending : list A)
  : list A :=
  match fuel, pending with
  | S fuel', t0 :: _ =>
      let p := Nat.modulo (hd 0%nat oracle) (length pending) in
      nth p pending t0 :: schedule fuel' (tl oracle) (remove_nth p pending)
  | _, _ => []
  end.

(** The content of the channel that a goroutine leaves behind. *)
Definition chan_of (res : error) : chan :=
  match res with Some _ => [res] | None => [] end.

(** The channels after the goroutines reported [results] (position and
    result). *)
Definition deliver (results : list (nat * error)) (chans : list chan) : list chan :=
  fold_left (fun chs r => set_nth (fst r) (chan_of (snd r)) chs) results chans.

(** The slots in the order in which [Root.Close] invokes them: [k] slots
    from [base], under the scheduler [oracle]. *)
Definition order_of (oracle : list nat) (base k : nat) : list nat :=
  map (Nat.add base) (schedule k oracle (seq 0 k)).

(** The value that [Close] returns for the failure texts [fErrors]. *)
Definition report (fErrors : list string) : error :=
  match fErrors with
  | [] => None
  | _ :: _ => Errorf "closer.Close" (Join fErrors "; ")
  end.

Section Vocabulary.

Context {Ctx World : Type}.

(** The invariant of the struct. *)
Definition inv (c : Closer Ctx World) : Prop :=
  0 <= i c <= size c /\ size c = Z.of_nat (length (funcs c)).

(** A registry between two operations: the mutex is free, the invariant
    holds and [size] is a Go [int]. *)
Definition wf (c : Closer Ctx World) : Prop :=
  mu c = false /\ inv c /\ size c <= int_max.

(** Running the callbacks of [fs] at the slots [order], one after the
    other, from the world [w]: the final world and the (slot, result) of
    every invocation. *)
Fixpoint run_order (ctx : Ctx) (fs : list (Func Ctx World)) (order : list nat)
    (w : World) : World * list (nat * error) :=
  match order with
  | [] => (w, [])
  | slot :: rest =>
      match nth_error fs slot with
      | Some f =>
          let r := f ctx w in
          let wr := run_order ctx fs rest (fst r) in
          (fst wr, (slot, snd r) :: snd wr)
      | None => run_order ctx fs rest w
      end
  end.

(** [n] calls of [CloseOne] in a row, with their results. *)
Fixpoint CloseOne_n (n : nat) (ctx : Ctx) : M Ctx World (list error) :=
  match n with
  | O => ret []
  | S n' =>
      e <- CloseOne ctx ;;
      es <- CloseOne_n n' ctx ;;
      ret (e :: es)
  end.

(** [Add] of every callback of a list, in order. *)
Fixpoint Add_all (fs : list (Func Ctx World)) : M Ctx World unit :=
  match fs with
  | [] => ret tt
  | f :: rest => Add f ;;; Add_all rest
  end.

(** The value returned by a run that ended normally. *)
Definition returned {A : Type} (o : Outcome Ctx World A) : option A :=
  match o with
  | Done a _ => Some a
  | _ => None
  end.

(** The state a run ended in, normally or not. *)
Definition final {A : Type} (o : Outcome Ctx World A) : State Ctx World :=
  match o with
  | Done _ s => s
  | Panic _ s => s
  | Blocked s => s
  end.

(** The goroutines of [sched] run one after the other from [w]: the final
    world and the (position, result) of each. *)
Fixpoint run_sched (ctx : Ctx) (sched : list (nat * Func Ctx World)) (w : World)
  : World * list (nat * error) :=
  match sched with
  | [] => (w, [])
  | t :: rest =>
      let r := snd t ctx w in
      let wr := run_sched ctx rest (fst r) in
      (fst wr, (fst t, snd r) :: snd wr)
  end.

(** A result at position [fst r] of the snapshot, seen at its slot. *)
Definition shift (base : nat) (r : nat * error) : nat * error :=
  ((base + fst r)%nat, snd r).

(** The trace events of the invocations [calls]. *)
Definition call_events (calls : list (nat * error)) : list event :=
  map (fun r => EvCall (fst r) (snd r)) calls.

(** The callbacks of [snapshot] run in line, the first at [slot]. *)
Fixpoint run_list (ctx : Ctx) (slot : nat) (snapshot : list (Func Ctx World))
    (w : World) : World * list (nat * error) :=
  match snapshot with
  | [] => (w, [])
  | f :: rest =>
      let r := f ctx w in
      let wr := run_list ctx (S slot) rest (fst r) in
      (fst wr, (slot, snd r) :: snd wr)
  end.

(** One call of an exported method ([OpCloseSync] is [Close] of
    [src/closer/closer.go]). *)
Inductive op : Type :=
| OpAdd (f : Func Ctx World)
| OpClose (oracle : list nat) (ctx : Ctx)
| OpCloseSync (ctx : Ctx)
| OpCloseOne (ctx : Ctx)
| OpSize.

(** What a call returned. *)
Inductive result : Type :=
| RNone
| RErr (e : error)
| RInt (n : Z).

(** One call, with what it returned. *)
Definition run_op (o : op) : M Ctx World result :=
  match o with
  | OpAdd f => Add f ;;; ret RNone
  | OpClose oracle ctx => e <- Root.Close oracle ctx ;; ret (RErr e)
  | OpCloseSync ctx => e <- Sub.Close ctx ;; ret (RErr e)
  | OpCloseOne ctx => e <- CloseOne ctx ;; ret (RErr e)
  | OpSize => n <- Size ;; ret (RInt n)
  end.

(** The calls of [ops] one after the other. *)
Fixpoint run_ops (ops : list op) : M Ctx World (list result) :=
  match ops with
  | [] => ret []
  | o :: rest =>
      r <- run_op o ;;
      rs <- run_ops rest ;;
      ret (r :: rs)
  end.

(** The number of [Add] calls in a sequence. *)
Fixpoint adds (ops : list op) : nat :=
  match ops with
  | [] => O
  | OpAdd _ :: rest => S (adds rest)
  | _ :: rest => adds rest
  end.

(** The error of a close operation on an exhausted registry. *)
Definition exhausted_result (o : op) : result :=
  match o with
  | OpClose _ _ | OpCloseSync _ => RErr (Errorf "closer.Close" ErrAllServicesClosed)
  | OpCloseOne _ => RErr (Errorf "closer.CloseOne" ErrAllServicesClosed)
  | OpAdd _ => RNone
  | OpSize => RNone
  end.

(** [Close] of either file, or [CloseOne]. *)
Definition is_close (o : op) : bool :=
  match o with
  | OpClose _ _ | OpCloseSync _ | OpCloseOne _ => true
  | _ => false
  end.

(** The events that a run adds to the trace. *)
Definition events_of {A : Type} (m : M Ctx World A) (s : State Ctx World)
  : list event :=
  skipn (length (trace s)) (trace (final (m s))).

(** No callback of [fs] has a result that depends on the world it runs in
    (hence on what the other callbacks did before it). *)
Definition order_insensitive (ctx : Ctx) (fs : list (Func Ctx World)) : Prop :=
  forall (f : Func Ctx World) (w w' : World),
    In f fs -> snd (f ctx w) = snd (f ctx w').

(** The invocations of the slots [order] when the results are those
    obtained in the world [w0]. *)
Definition calls_at (ctx : Ctx) (fs : list (Func Ctx World)) (w0 : World)
    (order : list nat) : list (nat * error) :=
  flat_map (fun slot => match nth_error fs slot with
                        | Some f => [(slot, snd (f ctx w0))]
                        | None => []
                        end) order.

End Vocabulary.

(** ** Concrete callbacks and registries *)

(** A callback that counts its invocations in the world and succeeds. *)
Definition ok : Func unit nat := fun _ w => (S w, None).

(** A callback that counts its invocations and fails with text [m]. *)
Definition ko (m : string) : Func unit nat := fun _ w => (S w, Some m).

(** The empty registry, nothing invoked, nothing traced. *)
Definition fresh : State unit nat := mkState zero 0%nat [].

(** A registry of three callbacks, the second of which fails. *)
Definition three : State unit nat :=
  final (Add_all [ok; ko "second"; ok] fresh).

(** Two callbacks that share a flag of the world: the first raises it, the
    second fails when it finds it raised. *)
Definition raise_flag : Func unit bool := fun _ _ => (true, None).

Definition check_flag : Func unit bool :=
  fun _ w => (w, if w then Some "flag is up"%string else None).

(** The registry of these two callbacks, flag down. *)
Definition racy : State unit bool :=
  final (Add_all [raise_flag; check_flag] (mkState zero false [])).

(** ** The two halves of [CloseOne], callers in flight

    [CloseOne] holds the mutex only while it takes its slot; the callback
    runs after [Unlock].  Between the two halves other callers can run. *)

Section Interleaving.

Context {Ctx World : Type}.

(** [CloseOne] up to the return of its closure: the slot saved in [prev]
    and the [err] of the closure. *)
Definition reserve : M Ctx World (Z * error) :=
  let op := "closer.CloseOne"%string in
  Lock ;;;
  prev <- get_i ;;
  err <- with_defer Unlock
           (ci <- get_i ;;
            n <- get_size ;;
            if ci >=? n
            then ret (Errorf op ErrAllServicesClosed)
            else (cj <- get_i ;;
                  set_i (wrap (cj + 1)) ;;;
                  ret None)) ;;
  ret (prev, err).

(** [CloseOne] from [if err != nil] on, for the [prev] and [err] of the
    first half. *)
Definition invoke (ctx : Ctx) (ticket : Z * error) : M Ctx World error :=
  match snd ticket with
  | Some _ => ret (snd ticket)
  | None =>
      fs <- get_funcs ;;
      f <- index fs (fst ticket) ;;
      call (Z.to_nat (fst ticket)) f ctx
  end.

(** A caller of [CloseOne] that has left the mutex and not yet returned:
    its context and its ticket. *)
Definition caller : Type := Ctx * (Z * error).

(** One step of a run of several goroutines: a new caller runs the first
    half of [CloseOne]; one of the callers in flight (the [pick]-th, modulo
    their number) runs the second half; or a whole operation runs. *)
Inductive step : Type :=
| Enter (ctx : Ctx)
| Leave (pick : nat)
| Whole (o : op (Ctx:=Ctx) (World:=World)).

(** The run of [steps] with the callers [inside] in flight: the callers
    still in flight at the end and the results returned, in order. *)
Fixpoint run_steps (steps : list step) (inside : list caller)
  : M Ctx World (list caller * list result) :=
  match steps with
  | [] => ret (inside, [])
  | Enter ctx :: rest =>
      ticket <- reserve ;;
      run_steps rest (inside ++ [(ctx, ticket)])
  | Leave pick :: rest =>
      match inside with
      | [] => run_steps rest inside
      | c0 :: _ =>
          let p := Nat.modulo pick (length inside) in
          let c := nth p inside c0 in
          e <- invoke (fst c) (snd c) ;;
          out <- run_steps rest (remove_nth p inside) ;;
          ret (fst out, RErr e :: snd out)
      end
  | Whole o :: rest =>
      r <- run_op o ;;
      out <- run_steps rest inside ;;
      ret (fst out, r :: snd out)
  end.

(** The slots held by the callers in flight. *)
Definition held_slots (inside : list caller) : list nat :=
  flat_map (fun c : caller =>
              match snd (snd c) with
              | None => [Z.to_nat (fst (snd c))]
              | Some _ => []
              end) inside.

(** A caller in flight that holds a slot holds one of the registry. *)
Definition ticket_ok (c : Closer Ctx World) (cr : caller) : Prop :=
  snd (snd cr) = None -> 0 <= fst (snd cr) < size c.

(** The number of callers that enter. *)
Fixpoint enters (steps : list step) : nat :=
  match steps with
  | [] => O
  | Enter _ :: rest => S (enters rest)
  | _ :: rest => enters rest
  end.

(** Every caller that enters is under the context [ctx]. *)
Definition same_context (ctx : Ctx) (steps : list step) : Prop :=
  Forall (fun st => match st with Enter c => c = ctx | _ => True end) steps.

(** The whole operations of a run. *)
Fixpoint wholes (steps : list step) : list (op (Ctx:=Ctx) (World:=World)) :=
  match steps with
  | [] => []
  | Whole o :: rest => o :: wholes rest
  | _ :: rest => wholes rest
  end.

(** The loop of the benchmarks of [src/closer/closer_bench_test.go]:
    [n] times [err := body; cl.reset(); if err != nil { b.Fatalf(...) }].
    Its value is the error that stopped it, if any. *)
Fixpoint bench_loop (body : M Ctx World error) (n : nat) : M Ctx World error :=
  match n with
  | O => ret None
  | S n' =>
      err <- body ;;
      Sub.reset ;;;
      match err with
      | Some _ => ret err
      | None => bench_loop body n'
      end
  end.

(** Every callback of [fs] succeeds in every world. *)
Definition always_succeed (ctx : Ctx) (fs : list (Func Ctx World)) : Prop :=
  forall (f : Func Ctx World) (w : World), In f fs -> snd (f ctx w) = None.

End Interleaving.

(** ** The mock of the tests *)

(** A [context.Context] as the mock uses it: is [Done()] closed, and what
    [Err()] returns. *)
Record Context : Type := mkContext {
  ctx_done : bool;
  ctx_err : error
}.

(** [context.Background()] *)
Definition Background : Context := mkContext false None.

(** A context after [cancel()]; [context.Canceled.Error()] is
    "context canceled". *)
Definition Canceled : Context := mkContext true (Some "context canceled"%string).

(** [func (m *mockCloseFunc) close(ctx context.Context) error] of the
    [k]-th mock; the world holds the [calledCount] of every mock. *)
Definition mock_close (k : nat) : Func Context (list nat) :=
  fun ctx counts =>
    (set_nth k (S (nth k counts O)) counts,
     if ctx_done ctx then ctx_err ctx else None).

(** What the mock returns under [ctx]. *)
Definition mock_result (ctx : Context) : error :=
  if ctx_done ctx then ctx_err ctx else None.

(** [m.calledCount++] of the [k]-th mock. *)
Definition bump (counts : list nat) (k : nat) : list nat :=
  set_nth k (S (nth k counts O)) counts.

(** [n] mocks, none called, added to a new [Closer] in order. *)
Definition mock_registry (n : nat) : State Context (list nat) :=
  final (Add_all (map mock_close (seq 0 n)) (mkState zero (repeat O n) [])).

(** A registry of two callbacks that both fail. *)
Definition two_failing : State unit nat :=
  final (Add_all [ko "a"; ko "b"] fresh).

(** The registry [three] after a [Close]. *)
Definition three_closed : State unit nat := final (Root.Close [] tt three).

(** A registry of two callbacks that succeed. *)
Definition two_ok : State unit nat := final (Add_all [ok; ok] fresh).

(** * Proofs *)

(** ** Basic facts *)

Lemma wrap_id (z : Z) : int_min <= z <= int_max -> wrap z = z.
Proof.
  unfold int_min, int_max, wrap. intros H.
  rewrite Z.mod_small; lia.
Qed.

(** Evaluates [wrap] at the literals of the goal. *)
Ltac eval_wrap :=
  repeat match goal with
         | |- context [wrap ?z] =>
             let v := eval vm_compute in (wrap z) in
             change (wrap z) with v
         end.

Lemma calls_of_app (a b : list event) :
  calls_of (a ++ b) = calls_of a ++ calls_of b.
Proof. unfold calls_of. apply flat_map_app. Qed.

Section StepLemmas.

Context {Ctx World : Type}.

Implicit Types (fs : list (Func Ctx World)) (w : World) (t : list event).

Lemma Add_step f fs n k w t :
  Add f (mkState (mkCloser false fs n k) w t) =
  Done tt (mkState (mkCloser false (fs ++ [f]) (wrap (n + 1)) k) w
             (t ++ [EvLock; EvRead Ffuncs; EvWrite Ffuncs;
                    EvRead Fsize; EvWrite Fsize; EvUnlock])).
Proof.
  unfold Add, bind, with_defer, Lock, Unlock, get_funcs, set_funcs,
    get_size, set_size, emit, with_cl. simpl.
  rewrite <- !app_assoc. reflexivity.
Qed.

Lemma CloseOne_exhausted ctx fs n k w t :
  n <= k ->
  CloseOne ctx (mkState (mkCloser false fs n k) w t) =
  Done (Errorf "closer.CloseOne" ErrAllServicesClosed)
       (mkState (mkCloser false fs n k) w
          (t ++ [EvLock; EvRead Fi; EvRead Fi; EvRead Fsize; EvUnlock])).
Proof.
  intros H.
  unfold CloseOne, bind, with_defer, Lock, Unlock, get_i, get_size,
    emit, with_cl. simpl.
  rewrite Z.geb_leb. destruct (Z.leb_spec n k); [|lia]. simpl.
  rewrite <- !app_assoc. reflexivity.
Qed.

Lemma CloseOne_next ctx fs n k w t f :
  k < n -> 0 <= k -> nth_error fs (Z.to_nat k) = Some f ->
  CloseOne ctx (mkState (mkCloser false fs n k) w t) =
  Done (snd (f ctx w))
       (mkState (mkCloser false fs n (wrap (k + 1))) (fst (f ctx w))
          (t ++ [EvLock; EvRead Fi; EvRead Fi; EvRead Fsize; EvRead Fi;
                 EvWrite Fi; EvUnlock; EvRead Ffuncs;
                 EvCall (Z.to_nat k) (snd (f ctx w))])).
Proof.
  intros H H0 Hf.
  assert (Hlen : (Z.to_nat k < length fs)%nat)
    by (apply nth_error_Some; congruence).
  unfold CloseOne, bind, with_defer, Lock, Unlock, get_i, get_size, set_i,
    get_funcs, index, call, emit, with_cl. simpl.
  rewrite Z.geb_leb. destruct (Z.leb_spec n k); [lia|]. simpl.
  destruct (Z.leb_spec 0 k); [|lia].
  destruct (Z.ltb_spec k (Z.of_nat (length fs))); [|lia]. simpl.
  rewrite Hf. unfold ret. simpl.
  rewrite <- !app_assoc. reflexivity.
Qed.

(** The branch that panics: a slot past the end of [funcs]. *)
Lemma CloseOne_out_of_range ctx fs n k w t :
  k < n -> Z.of_nat (length fs) <= k ->
  exists s', CloseOne ctx (mkState (mkCloser false fs n k) w t) =
             Panic "index out of range" s'.
Proof.
  intros H H0.
  unfold CloseOne, bind, with_defer, Lock, Unlock, get_i, get_size, set_i,
    get_funcs, index, call, emit, with_cl. simpl.
  rewrite Z.geb_leb. destruct (Z.leb_spec n k); [lia|]. simpl.
  destruct (Z.ltb_spec k (Z.of_nat (length fs))); [lia|].
  rewrite andb_false_r. unfold panic. eauto.
Qed.

Lemma Size_step (s : State Ctx World) :
  Size s = Done (size (cl s))
             (mkState (cl s) (world s) (trace s ++ [EvRead Fsize])).
Proof. reflexivity. Qed.

End StepLemmas.

(** ** The scheduler of [Root.Close] *)

Lemma nth_remove_nth_perm {A : Type} (d : A) (l : list A) (p : nat) :
  (p < length l)%nat -> Permutation (nth p l d :: remove_nth p l) l.
Proof.
  revert p. induction l as [|x l IH]; intros p Hp; simpl in *.
  - lia.
  - destruct p as [|p].
    + apply Permutation_refl.
    + eapply perm_trans; [apply perm_swap|].
      apply perm_skip. apply IH. lia.
Qed.

Lemma length_remove_nth {A : Type} (l : list A) (p : nat) :
  (p < length l)%nat -> length (remove_nth p l) = pred (length l).
Proof.
  revert p. induction l as [|x l IH]; intros p Hp; simpl in *.
  - lia.
  - destruct p as [|p]; [reflexivity|].
    simpl. rewrite IH by lia. destruct l; simpl in *; lia.
Qed.

Lemma schedule_perm {A : Type} (fuel : nat) :
  forall (oracle : list nat) (pending : list A),
    fuel = length pending ->
    Permutation (schedule fuel oracle pending) pending.
Proof.
  induction fuel as [|fuel IH]; intros oracle pending Hlen.
  - destruct pending; [apply perm_nil|discriminate].
  - destruct pending as [|t0 rest]; [discriminate|].
    cbn [schedule].
    set (p := Nat.modulo (hd 0%nat oracle) (length (t0 :: rest))).
    assert (Hp : (p < length (t0 :: rest))%nat)
      by (apply Nat.mod_upper_bound; simpl; lia).
    eapply perm_trans; [|apply (nth_remove_nth_perm t0 _ p Hp)].
    apply perm_skip. apply IH.
    rewrite length_remove_nth by exact Hp. simpl in *. lia.
Qed.

(** Every order of the pending goroutines is the choice of some oracle. *)
Lemma every_order_is_scheduled {A : Type} (target : list A) :
  forall pending,
    Permutation target pending ->
    exists oracle, schedule (length pending) oracle pending = target.
Proof.
  induction target as [|x target IH]; intros pending Hperm.
  - apply Permutation_nil in Hperm. subst pending. exists []. reflexivity.
  - assert (Hin : In x pending)
      by (apply (Permutation_in _ Hperm); left; reflexivity).
    destruct (In_nth _ _ x Hin) as (j & Hj & Hnth).
    assert (Hrest : Permutation target (remove_nth j pending)).
    { apply Permutation_cons_inv with (a := x).
      eapply perm_trans; [exact Hperm|]. symmetry.
      rewrite <- Hnth at 1. apply nth_remove_nth_perm. exact Hj. }
    destruct (IH _ Hrest) as [oracle Ho].
    exists (j :: oracle).
    destruct pending as [|t0 rest]; [simpl in Hj; lia|].
    rewrite length_remove_nth in Ho by exact Hj.
    change (length (t0 :: rest)) with (S (length rest)) at 1.
    cbn [schedule hd tl]. rewrite Nat.mod_small by exact Hj.
    rewrite (nth_indep _ t0 x Hj), Hnth. f_equal. exact Ho.
Qed.

Lemma length_set_nth {A : Type} (l : list A) (n : nat) (v : A) :
  length (set_nth n v l) = length l.
Proof.
  revert n. induction l as [|x l IH]; intros [|n]; simpl; auto.
Qed.

Lemma nth_set_nth {A : Type} (d : A) (l : list A) (n m : nat) (v : A) :
  nth m (set_nth n v l) d =
  if Nat.eqb m n then (if Nat.ltb n (length l) then v else d) else nth m l d.
Proof.
  revert n m. induction l as [|x l IH]; intros n m.
  - destruct m, n; reflexivity || (simpl; destruct (Nat.eqb m n); reflexivity).
  - destruct n as [|n], m as [|m]; simpl; try reflexivity.
    rewrite IH. destruct (Nat.eqb_spec m n); [|reflexivity].
    change (Nat.ltb (S n) (S (length l))) with (Nat.ltb n (length l)).
    reflexivity.
Qed.

Lemma length_deliver (results : list (nat * error)) :
  forall chans, length (deliver results chans) = length chans.
Proof.
  induction results as [|r results IH]; intros chans; simpl.
  - reflexivity.
  - unfold deliver in *. simpl. rewrite IH. apply length_set_nth.
Qed.

Section SchedulerLemmas.

Context {Ctx World : Type}.

Lemma Wait_spec (ctx : Ctx) (base : nat) (fuel : nat) :
  forall oracle (pending : list (nat * Func Ctx World)) chans c w t,
    Root.Wait fuel oracle ctx base pending chans (mkState c w t) =
    let wr := run_sched ctx (schedule fuel oracle pending) w in
    Done (deliver (snd wr) chans)
         (mkState c (fst wr)
            (t ++ map (fun r => EvCall (base + fst r) (snd r)) (snd wr))).
Proof.
  induction fuel as [|fuel IH]; intros oracle pending chans c w t.
  - simpl. rewrite app_nil_r. reflexivity.
  - destruct pending as [|t0 rest].
    + simpl. rewrite app_nil_r. reflexivity.
    + cbn [Root.Wait schedule].
      set (p := Nat.modulo (hd 0%nat oracle) (length (t0 :: rest))).
      unfold bind at 1. unfold Root.goroutine, bind, call, ret. simpl.
      rewrite IH. simpl. rewrite <- app_assoc. reflexivity.
Qed.

End SchedulerLemmas.

(** ** Failure texts by slot *)

Lemma flat_map_ext_in {A B : Type} (f g : A -> list B) (l : list A) :
  (forall a, In a l -> f a = g a) -> flat_map f l = flat_map g l.
Proof.
  induction l as [|x l IH]; intros H; simpl.
  - reflexivity.
  - rewrite (H x) by (left; reflexivity). f_equal.
    apply IH. intros a Ha. apply H. right. exact Ha.
Qed.

Lemma messages_chan_of (res : error) : messages (chan_of res) = msg_of res.
Proof. destruct res; reflexivity. Qed.

Lemma by_slot_absent (calls : list (nat * error)) (slot : nat) :
  ~ In slot (map fst calls) -> by_slot calls slot = [].
Proof.
  induction calls as [|r calls IH]; intros Hn; simpl in *.
  - reflexivity.
  - destruct (Nat.eqb_spec (fst r) slot) as [E|E].
    + exfalso. apply Hn. left. exact E.
    + simpl. apply IH. intros Hin. apply Hn. right. exact Hin.
Qed.

Lemma by_slot_present (calls : list (nat * error)) (r : nat * error) :
  NoDup (map fst calls) -> In r calls -> by_slot calls (fst r) = msg_of (snd r).
Proof.
  induction calls as [|r0 calls IH]; intros Hnd Hin; simpl in *.
  - contradiction.
  - inversion Hnd as [|x l Hx Hnd']; subst.
    destruct Hin as [E|Hin].
    + subst r0. rewrite Nat.eqb_refl.
      change (flat_map _ calls) with (by_slot calls (fst r)).
      rewrite by_slot_absent by exact Hx. apply app_nil_r.
    + destruct (Nat.eqb_spec (fst r0) (fst r)) as [E|E].
      * exfalso. apply Hx. rewrite E. apply in_map. exact Hin.
      * simpl. apply IH; assumption.
Qed.

Lemma by_slot_keys (calls : list (nat * error)) :
  NoDup (map fst calls) ->
  flat_map (by_slot calls) (map fst calls) =
  flat_map (fun r => msg_of (snd r)) calls.
Proof.
  intros Hnd. rewrite flat_map_concat_map, map_map, <- flat_map_concat_map.
  apply flat_map_ext_in. intros r Hin. apply by_slot_present; assumption.
Qed.

Lemma by_slot_shift (base : nat) (results : list (nat * error)) (k : nat) :
  by_slot (map (fun r => ((base + fst r)%nat, snd r)) results) (base + k) =
  by_slot results k.
Proof.
  unfold by_slot. induction results as [|r results IH]; simpl.
  - reflexivity.
  - rewrite IH. f_equal.
    destruct (Nat.eqb_spec (base + fst r) (base + k)),
             (Nat.eqb_spec (fst r) k); try reflexivity; lia.
Qed.

Lemma seq_add_map (base k : nat) :
  map (Nat.add base) (seq 0 k) = seq base k.
Proof.
  revert base. induction k as [|k IH]; intros base.
  - reflexivity.
  - cbn [seq map]. rewrite Nat.add_0_r. f_equal.
    rewrite <- (seq_shift k 0), map_map, <- (IH (S base)).
    apply map_ext. intros a. lia.
Qed.

Lemma in_slot_order_shift (base k : nat) (results : list (nat * error)) :
  in_slot_order (map (fun r => ((base + fst r)%nat, snd r)) results) base k =
  flat_map (by_slot results) (seq 0 k).
Proof.
  unfold in_slot_order.
  replace (seq base k) with (map (Nat.add base) (seq 0 k)).
  - rewrite flat_map_concat_map, map_map, <- flat_map_concat_map.
    apply flat_map_ext. intros j. apply by_slot_shift.
  - apply seq_add_map.
Qed.

Lemma map_nth_seq {A : Type} (d : A) (l : list A) :
  map (fun k => nth k l d) (seq 0 (length l)) = l.
Proof.
  induction l as [|x l IH]; simpl.
  - reflexivity.
  - f_equal. rewrite <- seq_shift, map_map. exact IH.
Qed.

Lemma messages_nth_deliver (results : list (nat * error)) :
  NoDup (map fst results) ->
  forall chans k,
    (k < length chans)%nat ->
    messages (nth k (deliver results chans) []) =
    if existsb (fun r => Nat.eqb (fst r) k) results
    then by_slot results k
    else messages (nth k chans []).
Proof.
  induction results as [|r results IH]; intros Hnd chans k Hk.
  - reflexivity.
  - inversion Hnd as [|x l Hx Hnd']; subst.
    change (deliver (r :: results) chans)
      with (deliver results (set_nth (fst r) (chan_of (snd r)) chans)).
    rewrite IH by (try assumption; rewrite length_set_nth; assumption).
    cbn [existsb by_slot flat_map].
    change (flat_map _ results) with (by_slot results k).
    destruct (Nat.eqb_spec (fst r) k) as [E|E]; simpl.
    + subst k.
      assert (Hex : existsb (fun r0 => Nat.eqb (fst r0) (fst r)) results = false).
      { destruct (existsb _ results) eqn:Ex; [|reflexivity].
        apply existsb_exists in Ex. destruct Ex as [r0 [Hin Heq]].
        apply Nat.eqb_eq in Heq. exfalso. apply Hx. rewrite <- Heq.
        apply in_map. exact Hin. }
      rewrite Hex, nth_set_nth, Nat.eqb_refl.
      destruct (Nat.ltb_spec (fst r) (length chans)); [|lia].
      rewrite messages_chan_of, by_slot_absent by exact Hx.
      symmetry. apply app_nil_r.
    + rewrite nth_set_nth.
      destruct (Nat.eqb_spec k (fst r)); [congruence|]. reflexivity.
Qed.

Lemma nth_repeat_default {A : Type} (d : A) (k n : nat) :
  nth k (repeat d n) d = d.
Proof.
  revert k. induction n as [|n IH]; intros [|k]; simpl; auto.
Qed.

Lemma collect_deliver (results : list (nat * error)) (k : nat) :
  NoDup (map fst results) ->
  Root.collect (deliver results (repeat [] k)) =
  flat_map (by_slot results) (seq 0 k).
Proof.
  intros Hnd. unfold Root.collect.
  rewrite <- (map_nth_seq [] (deliver results (repeat [] k))) at 1.
  rewrite length_deliver, repeat_length.
  rewrite flat_map_concat_map, map_map, <- flat_map_concat_map.
  apply flat_map_ext_in. intros j Hj. apply in_seq in Hj.
  rewrite messages_nth_deliver by (try assumption; rewrite repeat_length; lia).
  destruct (existsb _ results) eqn:Ex; [reflexivity|].
  rewrite nth_repeat_default. simpl. symmetry. apply by_slot_absent.
  intros Hin. apply in_map_iff in Hin. destruct Hin as [r [E Hin]].
  assert (existsb (fun r0 => Nat.eqb (fst r0) j) results = true).
  { apply existsb_exists. exists r. split; [assumption|].
    apply Nat.eqb_eq. exact E. }
  congruence.
Qed.

(** ** What [Close] computes *)

Lemma remove_nth_map {A B : Type} (g : A -> B) (l : list A) (p : nat) :
  remove_nth p (map g l) = map g (remove_nth p l).
Proof.
  revert p. induction l as [|x l IH]; intros [|p]; simpl; try reflexivity.
  f_equal. apply IH.
Qed.

Lemma schedule_map {A B : Type} (g : A -> B) (fuel : nat) :
  forall oracle (l : list A),
    schedule fuel oracle (map g l) = map g (schedule fuel oracle l).
Proof.
  induction fuel as [|fuel IH]; intros oracle l.
  - reflexivity.
  - destruct l as [|x l]; [reflexivity|].
    cbn [schedule map]. rewrite <- (map_cons g x l), length_map.
    rewrite (map_nth g (x :: l) x), remove_nth_map, IH. reflexivity.
Qed.

Lemma schedule_in_order {A : Type} (l : list A) :
  schedule (length l) [] l = l.
Proof.
  induction l as [|x l IH]; [reflexivity|].
  cbn [schedule length hd tl]. rewrite Nat.Div0.mod_0_l.
  cbn [nth remove_nth]. f_equal. exact IH.
Qed.

Lemma order_of_perm (oracle : list nat) (base k : nat) :
  Permutation (order_of oracle base k) (seq base k).
Proof.
  unfold order_of. rewrite <- (seq_add_map base k).
  apply Permutation_map. apply schedule_perm. symmetry. apply length_seq.
Qed.

Lemma order_of_in_order (base k : nat) : order_of [] base k = seq base k.
Proof.
  unfold order_of. rewrite <- (length_seq k 0) at 1.
  rewrite schedule_in_order. apply seq_add_map.
Qed.

(** [Root.Close] can invoke the unclosed callbacks in any order. *)
Lemma every_slot_order_is_scheduled (order : list nat) (base k : nat) :
  Permutation order (seq base k) ->
  exists oracle, order_of oracle base k = order.
Proof.
  intros Hperm.
  destruct (every_order_is_scheduled order (seq base k) Hperm) as [oracle Ho].
  exists oracle. unfold order_of.
  rewrite <- schedule_map, seq_add_map.
  rewrite length_seq in Ho. exact Ho.
Qed.

Section CloseLemmas.

Context {Ctx World : Type}.

Implicit Types (fs : list (Func Ctx World)) (w : World) (t : list event).

Lemma run_order_sched ctx fs base (sched : list (nat * Func Ctx World)) :
  (forall tk, In tk sched -> nth_error fs (base + fst tk) = Some (snd tk)) ->
  forall w,
    run_order ctx fs (map (fun tk => (base + fst tk)%nat) sched) w =
    (fst (run_sched ctx sched w), map (shift base) (snd (run_sched ctx sched w))).
Proof.
  induction sched as [|tk sched IH]; intros Hin w.
  - reflexivity.
  - cbn [map run_order run_sched].
    rewrite (Hin tk) by (left; reflexivity).
    rewrite IH by (intros tk' H'; apply Hin; right; exact H').
    reflexivity.
Qed.

Lemma map_fst_run_sched ctx (sched : list (nat * Func Ctx World)) :
  forall w, map fst (snd (run_sched ctx sched w)) = map fst sched.
Proof.
  induction sched as [|tk sched IH]; intros w; simpl.
  - reflexivity.
  - f_equal. apply IH.
Qed.

Lemma map_fst_run_order ctx fs (order : list nat) :
  (forall slot, In slot order -> (slot < length fs)%nat) ->
  forall w, map fst (snd (run_order ctx fs order w)) = order.
Proof.
  induction order as [|slot order IH]; intros Hin w.
  - reflexivity.
  - cbn [run_order].
    destruct (nth_error fs slot) as [f|] eqn:E.
    + simpl. f_equal. apply IH. intros s Hs. apply Hin. right. exact Hs.
    + apply nth_error_None in E.
      specialize (Hin slot (or_introl eq_refl)). lia.
Qed.

Lemma map_fst_range_execF (snapshot : list (Func Ctx World)) :
  map fst (Root.range_execF snapshot) = seq 0 (length snapshot).
Proof.
  unfold Root.range_execF, Root.execF. rewrite map_map. simpl.
  change (map (fun x => fst x) ?l) with (map fst l).
  generalize 0%nat. induction snapshot as [|f l IH]; intros a; simpl.
  - reflexivity.
  - f_equal. apply IH.
Qed.

Lemma in_range_execF (snapshot : list (Func Ctx World)) tk :
  In tk (Root.range_execF snapshot) -> nth_error snapshot (fst tk) = Some (snd tk).
Proof.
  unfold Root.range_execF, Root.execF.
  rewrite map_ext with (g := fun kf => kf) by (intros [a b]; reflexivity).
  rewrite map_id.
  assert (G : forall a, In tk (combine (seq a (length snapshot)) snapshot) ->
                (a <= fst tk)%nat /\ nth_error snapshot (fst tk - a) = Some (snd tk)).
  { induction snapshot as [|f l IH]; intros a Hin; simpl in *.
    - contradiction.
    - destruct Hin as [E|Hin].
      + subst tk. simpl. rewrite Nat.sub_diag. split; [lia|reflexivity].
      + apply IH in Hin. destruct Hin as [Hle Hn]. split; [lia|].
        replace (fst tk - a)%nat with (S (fst tk - S a)) by lia. exact Hn. }
  intros Hin. apply G in Hin. rewrite Nat.sub_0_r in Hin. apply Hin.
Qed.

End CloseLemmas.

Section CloseRuns.

Context {Ctx World : Type}.

Implicit Types (fs : list (Func Ctx World)) (w : World) (t : list event).

Lemma calls_of_call_events calls : calls_of (call_events calls) = calls.
Proof.
  unfold calls_of, call_events.
  induction calls as [|[slot res] calls IH]; simpl; [reflexivity|].
  f_equal. exact IH.
Qed.

Lemma Root_Close_exhausted oracle ctx fs n k w t :
  n <= k ->
  Root.Close oracle ctx (mkState (mkCloser false fs n k) w t) =
  Done (Errorf "closer.Close" ErrAllServicesClosed)
       (mkState (mkCloser false fs n k) w
          (t ++ [EvLock; EvRead Fi; EvRead Fsize; EvUnlock])).
Proof.
  intros H.
  unfold Root.Close, bind, with_defer, Lock, Unlock, get_i, get_size,
    emit, with_cl. simpl.
  rewrite Z.geb_leb. destruct (Z.leb_spec n k); [|lia]. simpl.
  rewrite <- !app_assoc. reflexivity.
Qed.

Lemma Sub_Close_exhausted ctx fs n k w t :
  n <= k ->
  Sub.Close ctx (mkState (mkCloser false fs n k) w t) =
  Done (Errorf "closer.Close" ErrAllServicesClosed)
       (mkState (mkCloser false fs n k) w
          (t ++ [EvLock; EvRead Fi; EvRead Fsize; EvUnlock])).
Proof.
  intros H.
  unfold Sub.Close, bind, with_defer, Lock, Unlock, get_i, get_size,
    emit, with_cl. simpl.
  rewrite Z.geb_leb. destruct (Z.leb_spec n k); [|lia]. simpl.
  rewrite <- !app_assoc. reflexivity.
Qed.

Lemma Root_Close_run oracle ctx fs n k w t :
  k < n -> 0 <= k <= Z.of_nat (length fs) ->
  let base := Z.to_nat k in
  let rest := (length fs - base)%nat in
  let wr := run_order ctx fs (order_of oracle base rest) w in
  Root.Close oracle ctx (mkState (mkCloser false fs n k) w t) =
  Done (report (in_slot_order (snd wr) base rest))
       (mkState (mkCloser false fs n n) (fst wr)
          (t ++ [EvLock; EvRead Fi; EvRead Fsize; EvRead Fsize; EvRead Fsize;
                 EvRead Ffuncs; EvRead Fi]
             ++ call_events (snd wr)
             ++ [EvRead Fsize; EvWrite Fi; EvUnlock])).
Proof.
  intros Hlt Hk base rest wr.
  set (snapshot := skipn base fs).
  assert (Hlen : length snapshot = rest) by apply length_skipn.
  set (sched := schedule rest oracle (Root.range_execF snapshot)).
  assert (Hkeys : map fst sched = schedule rest oracle (seq 0 rest)).
  { unfold sched. rewrite <- schedule_map, map_fst_range_execF, Hlen.
    reflexivity. }
  assert (Hord : order_of oracle base rest =
                 map (fun tk => (base + fst tk)%nat) sched).
  { unfold order_of. rewrite <- Hkeys, map_map. reflexivity. }
  assert (Hperm : Permutation sched (Root.range_execF snapshot)).
  { apply schedule_perm. unfold Root.range_execF.
    rewrite length_map, length_combine, length_seq, Hlen. lia. }
  assert (Hwr : wr = (fst (run_sched ctx sched w),
                      map (shift base) (snd (run_sched ctx sched w)))).
  { unfold wr. rewrite Hord. apply run_order_sched.
    intros tk Hin. apply (Permutation_in _ Hperm) in Hin.
    apply in_range_execF in Hin. unfold snapshot in Hin.
    rewrite nth_error_skipn in Hin. exact Hin. }
  assert (Hnd : NoDup (map fst (snd (run_sched ctx sched w)))).
  { rewrite map_fst_run_sched.
    apply (Permutation_NoDup (l := seq 0 rest)); [|apply seq_NoDup].
    rewrite <- Hlen, <- map_fst_range_execF.
    apply Permutation_map. symmetry. exact Hperm. }
  assert (Hgeb : (k >=? n) = false) by (rewrite Z.geb_leb; lia).
  assert (Hcap : (n <? 0) = false) by lia.
  assert (Hs1 : (0 <=? k) = true) by lia.
  assert (Hs2 : (k <=? Z.of_nat (length fs)) = true) by lia.
  unfold Root.Close, bind, with_defer, Lock, Unlock, get_i, get_size,
    get_funcs, set_i, make_cap, slice_from, emit, with_cl, ret.
  repeat (simpl; rewrite ?Hgeb, ?Hcap, ?Hs1, ?Hs2).
  fold base. fold snapshot.
  replace (length (Root.range_execF snapshot)) with rest
    by (unfold Root.range_execF;
        rewrite length_map, length_combine, length_seq, Hlen; lia).
  rewrite Wait_spec. fold sched. cbv zeta. rewrite Hlen.
  rewrite collect_deliver by exact Hnd.
  rewrite Hwr. cbn [fst snd]. unfold shift at 1.
  rewrite in_slot_order_shift.
  unfold call_events. rewrite map_map. unfold shift. cbn [fst snd].
  destruct (flat_map (by_slot (snd (run_sched ctx sched w))) (seq 0 rest));
    simpl; rewrite <- !app_assoc; reflexivity.
Qed.

End CloseRuns.

Section SubRuns.

Context {Ctx World : Type}.

Implicit Types (fs : list (Func Ctx World)) (w : World) (t : list event).

Lemma run_list_order ctx fs :
  forall (rest base : nat) w,
    (base + rest = length fs)%nat ->
    run_list ctx base (skipn base fs) w = run_order ctx fs (seq base rest) w.
Proof.
  induction rest as [|rest IH]; intros base w Hlen.
  - rewrite skipn_all2 by lia. reflexivity.
  - cbn [seq run_order].
    destruct (nth_error fs base) as [f|] eqn:E.
    + assert (Hsk : skipn base fs = f :: skipn (S base) fs).
      { clear - E. revert base E.
        induction fs as [|g fs IHfs]; intros [|base] E; simpl in *;
          try discriminate.
        - congruence.
        - apply IHfs. exact E. }
      rewrite Hsk. cbn [run_list]. rewrite IH by lia. reflexivity.
    + apply nth_error_None in E. lia.
Qed.

Lemma Sub_range_execF_spec ctx cap (snapshot : list (Func Ctx World)) :
  forall slot errCh c w t,
    Z.of_nat (length errCh) + Z.of_nat (length snapshot) <= cap ->
    Sub.range_execF ctx slot snapshot cap errCh (mkState c w t) =
    let wr := run_list ctx slot snapshot w in
    Done (errCh ++ flat_map (fun r => chan_of (snd r)) (snd wr))
         (mkState c (fst wr) (t ++ call_events (snd wr))).
Proof.
  induction snapshot as [|f rest IH]; intros slot errCh c w t Hcap.
  - simpl. rewrite !app_nil_r. reflexivity.
  - cbn [Sub.range_execF run_list]. cbn [length] in Hcap.
    unfold bind at 1. unfold Sub.execF, bind, call, Sub.send. simpl.
    destruct (snd (f ctx w)) as [m|] eqn:E.
    + destruct (Z.ltb_spec (Z.of_nat (length errCh)) cap); [|lia].
      rewrite IH by (rewrite length_app; simpl; lia).
      simpl. rewrite <- !app_assoc. reflexivity.
    + unfold ret. rewrite IH by lia.
      simpl. rewrite <- !app_assoc. reflexivity.
Qed.

Lemma Sub_collect_spec (n : nat) :
  forall (errCh : chan) fErrors,
    (length errCh <= n)%nat ->
    Sub.collect n errCh fErrors = fErrors ++ messages errCh.
Proof.
  induction n as [|n IH]; intros errCh fErrors Hlen.
  - destruct errCh; [|simpl in Hlen; lia]. simpl. symmetry. apply app_nil_r.
  - destruct errCh as [|err rest]; cbn [Sub.collect].
    + rewrite IH by (simpl; lia). reflexivity.
    + rewrite IH by (simpl in Hlen; lia).
      destruct err; simpl; [rewrite <- app_assoc|]; reflexivity.
Qed.

Lemma messages_of_results (calls : list (nat * error)) :
  messages (flat_map (fun r => chan_of (snd r)) calls) =
  flat_map (fun r => msg_of (snd r)) calls.
Proof.
  unfold messages. induction calls as [|[slot res] calls IH]; simpl.
  - reflexivity.
  - rewrite flat_map_app, IH. f_equal. destruct res; reflexivity.
Qed.

Lemma length_results_le (calls : list (nat * error)) :
  (length (flat_map (fun r => chan_of (snd r)) calls) <= length calls)%nat.
Proof.
  induction calls as [|[slot res] calls IH]; simpl.
  - lia.
  - rewrite length_app. destruct res; simpl; lia.
Qed.

Lemma length_run_list ctx (snapshot : list (Func Ctx World)) :
  forall slot w, length (snd (run_list ctx slot snapshot w)) = length snapshot.
Proof.
  induction snapshot as [|f rest IH]; intros slot w; simpl.
  - reflexivity.
  - f_equal. apply IH.
Qed.

Lemma Sub_Close_run ctx fs n k w t :
  k < n -> 0 <= k -> n = Z.of_nat (length fs) -> n <= int_max ->
  let base := Z.to_nat k in
  let rest := (length fs - base)%nat in
  let wr := run_order ctx fs (seq base rest) w in
  Sub.Close ctx (mkState (mkCloser false fs n k) w t) =
  Done (report (flat_map (fun r => msg_of (snd r)) (snd wr)))
       (mkState (mkCloser false fs n n) (fst wr)
          (t ++ [EvLock; EvRead Fi; EvRead Fsize; EvRead Fsize; EvRead Fi;
                 EvRead Ffuncs; EvRead Fi]
             ++ call_events (snd wr)
             ++ [EvRead Fsize; EvWrite Fi; EvUnlock])).
Proof.
  intros Hlt Hk Hn Hmax base rest wr.
  assert (Hwrap : wrap (n - k) = n - k)
    by (apply wrap_id; unfold int_min, int_max in *; lia).
  assert (Hgeb : (k >=? n) = false) by (rewrite Z.geb_leb; lia).
  assert (Hcap : (n - k <? 0) = false) by lia.
  assert (Hs1 : (0 <=? k) = true) by lia.
  assert (Hs2 : (k <=? Z.of_nat (length fs)) = true) by lia.
  assert (Hlen : length (skipn base fs) = rest) by apply length_skipn.
  assert (Hwr : run_list ctx base (skipn base fs) w = wr).
  { apply run_list_order. unfold rest, base. lia. }
  unfold Sub.Close, bind, with_defer, Lock, Unlock, get_i, get_size,
    get_funcs, set_i, make_cap, slice_from, emit, with_cl, ret.
  repeat (simpl; rewrite ?Hwrap, ?Hgeb, ?Hcap, ?Hs1, ?Hs2).
  fold base.
  rewrite Sub_range_execF_spec by (simpl; rewrite Hlen; unfold rest, base; lia).
  cbv zeta. rewrite Hwr. cbn [app].
  rewrite Sub_collect_spec.
  2:{ eapply Nat.le_trans; [apply length_results_le|].
      rewrite <- Hwr, length_run_list, Hlen. unfold rest, base. lia. }
  cbn [app]. rewrite messages_of_results.
  destruct (flat_map (fun r => msg_of (snd r)) (snd wr));
    simpl; rewrite <- !app_assoc; reflexivity.
Qed.

End SubRuns.

(** ** Sequences of operations *)

(** After a step lemma rewrote the run: give the result and the state, and
    look at the fields of the state. *)
Ltac show_done :=
  unfold ret; do 2 eexists; (split; [reflexivity|]); simpl.

(** The facts about the fields after one operation. *)
Ltac field_facts :=
  repeat split; try lia; try reflexivity; try discriminate.

Section OperationLemmas.

Context {Ctx World : Type}.

Implicit Types (s : State Ctx World) (o : op (Ctx:=Ctx) (World:=World)).

(** One operation on a well-formed registry: it returns, the registry is
    well-formed again, cursor and size do not decrease, [funcs] only grows
    at its end. *)
Lemma run_op_wf o s :
  wf (cl s) ->
  Z.of_nat (adds [o]) + size (cl s) <= int_max ->
  exists r s',
    run_op o s = Done r s' /\
    wf (cl s') /\
    i (cl s) <= i (cl s') /\
    size (cl s') = size (cl s) + Z.of_nat (adds [o]) /\
    (adds [o] = O -> funcs (cl s') = funcs (cl s)) /\
    (is_close o = true -> i (cl s) = size (cl s) ->
     r = exhausted_result o /\ cl s' = cl s /\ world s' = world s /\
     calls_of (trace s') = calls_of (trace s)).
Proof.
  destruct s as [[m fs n k] w t]. unfold wf, inv. simpl.
  intros (Hm & (Hk & Hn) & Hmax) Hadd. subst m.
  destruct o as [f|oracle ctx|ctx|ctx|]; cbn [adds] in *;
    change (Z.of_nat 1) with 1 in *; change (Z.of_nat 0) with 0 in *;
    unfold run_op, bind.
  - rewrite Add_step. show_done.
    rewrite wrap_id by (unfold int_min; lia).
    rewrite length_app. simpl. field_facts.
  - destruct (Z.lt_ge_cases k n) as [Hlt|Hge].
    + rewrite Root_Close_run by lia. show_done. field_facts.
    + rewrite Root_Close_exhausted by lia. show_done.
      rewrite calls_of_app, app_nil_r. field_facts.
  - destruct (Z.lt_ge_cases k n) as [Hlt|Hge].
    + rewrite Sub_Close_run by lia. show_done. field_facts.
    + rewrite Sub_Close_exhausted by lia. show_done.
      rewrite calls_of_app, app_nil_r. field_facts.
  - destruct (Z.lt_ge_cases k n) as [Hlt|Hge].
    + destruct (nth_error fs (Z.to_nat k)) as [f|] eqn:E.
      2:{ apply nth_error_None in E. lia. }
      rewrite (CloseOne_next ctx fs n k w t f) by (assumption || lia).
      show_done. rewrite wrap_id by (unfold int_min; lia). field_facts.
    + rewrite CloseOne_exhausted by lia. show_done.
      rewrite calls_of_app, app_nil_r. field_facts.
  - unfold Size, get_size, emit. show_done. field_facts.
Qed.

End OperationLemmas.

Section SequenceLemmas.

Context {Ctx World : Type}.

Implicit Types (s : State Ctx World) (ops : list (op (Ctx:=Ctx) (World:=World))).

Lemma adds_cons o ops : adds (o :: ops) = (adds [o] + adds ops)%nat.
Proof. destruct o; reflexivity. Qed.

(** Any sequence of operations on a well-formed registry. *)
Lemma run_ops_wf ops :
  forall s,
    wf (cl s) ->
    Z.of_nat (adds ops) + size (cl s) <= int_max ->
    exists rs s',
      run_ops ops s = Done rs s' /\
      wf (cl s') /\
      i (cl s) <= i (cl s') /\
      size (cl s') = size (cl s) + Z.of_nat (adds ops) /\
      (adds ops = O -> funcs (cl s') = funcs (cl s)) /\
      (forallb is_close ops = true -> i (cl s) = size (cl s) ->
       rs = map exhausted_result ops /\ cl s' = cl s /\ world s' = world s /\
       calls_of (trace s') = calls_of (trace s)).
Proof.
  induction ops as [|o ops IH]; intros s Hwf Hadd.
  - exists [], s. split; [reflexivity|]. split; [exact Hwf|].
    simpl. repeat split; try lia; reflexivity.
  - rewrite adds_cons in Hadd. rewrite adds_cons.
    destruct (run_op_wf o s Hwf) as (r & s1 & E1 & Hwf1 & Hi1 & Hs1 & Hf1 & Hx1);
      [lia|].
    destruct (IH s1 Hwf1) as (rs & s2 & E2 & Hwf2 & Hi2 & Hs2 & Hf2 & Hx2);
      [lia|].
    exists (r :: rs), s2. cbn [run_ops]. unfold bind at 1. rewrite E1.
    unfold bind at 1. rewrite E2. unfold ret.
    split; [reflexivity|]. split; [exact Hwf2|].
    split; [lia|]. split; [lia|]. split.
    + intros H0. rewrite Hf2, Hf1 by lia. reflexivity.
    + intros Hc Hex. cbn [forallb] in Hc. apply andb_prop in Hc.
      destruct Hc as [Hc1 Hc2].
      destruct (Hx1 Hc1 Hex) as (Er & Ec & Ew & Et).
      assert (Hex1 : i (cl s1) = size (cl s1)) by (rewrite Ec; exact Hex).
      destruct (Hx2 Hc2 Hex1) as (Ers & Ec2 & Ew2 & Et2).
      cbn [map]. rewrite Er, Ers, Ec2, Ec, Ew2, Ew, Et2, Et.
      repeat split; reflexivity.
Qed.

End SequenceLemmas.

(** * The claims *)

(** ** Exhausted registry *)

(** C4: on a registry whose cursor has reached its size (the empty registry
    included), [Close] returns the error "closer.Close: all services closed",
    invokes no callback and leaves the struct and the world as they were;
    this holds for [Close] of both files. *)
Theorem Close_exhausted_is_inert {Ctx World : Type} (oracle : list nat) (ctx : Ctx)
    (s : State Ctx World) :
  mu (cl s) = false ->
  size (cl s) <= i (cl s) ->
  (exists s',
     Root.Close oracle ctx s =
       Done (Errorf "closer.Close" ErrAllServicesClosed) s' /\
     cl s' = cl s /\ world s' = world s /\
     calls_of (trace s') = calls_of (trace s)) /\
  (exists s',
     Sub.Close ctx s =
       Done (Errorf "closer.Close" ErrAllServicesClosed) s' /\
     cl s' = cl s /\ world s' = world s /\
     calls_of (trace s') = calls_of (trace s)).
Proof.
  destruct s as [[m fs n k] w t]. simpl. intros Hm Hge. subst m. split.
  - rewrite Root_Close_exhausted by exact Hge. eexists. split; [reflexivity|].
    simpl. rewrite calls_of_app, app_nil_r. auto.
  - rewrite Sub_Close_exhausted by exact Hge. eexists. split; [reflexivity|].
    simpl. rewrite calls_of_app, app_nil_r. auto.
Qed.

Lemma Close_exhausted_is_inert_witness :
  (exists s',
     Root.Close [] tt fresh =
       Done (Errorf "closer.Close" ErrAllServicesClosed) s' /\
     cl s' = cl fresh /\ world s' = world fresh /\
     calls_of (trace s') = calls_of (trace fresh)) /\
  (exists s',
     Sub.Close tt fresh =
       Done (Errorf "closer.Close" ErrAllServicesClosed) s' /\
     cl s' = cl fresh /\ world s' = world fresh /\
     calls_of (trace s') = calls_of (trace fresh)).
Proof.
  apply (Close_exhausted_is_inert [] tt fresh).
  - reflexivity.
  - simpl. lia.
Defined.

(** ** The text of the exhaustion error *)

Lemma prefix_spec (a s : string) :
  String.prefix a s = true <-> exists b, s = (a ++ b)%string.
Proof.
  revert s. induction a as [|c a IH]; intros s.
  - split; [intros _; exists s; reflexivity|].
    intros _. destruct s; reflexivity.
  - destruct s as [|d s]; simpl.
    + split; [discriminate|]. intros [b Hb]. discriminate.
    + destruct (ascii_dec c d) as [E|E].
      * subst d. rewrite IH. split; intros [b Hb]; exists b; congruence.
      * split; [discriminate|]. intros [b Hb]. congruence.
Qed.

(** [Contains] decides the substring relation. *)
Lemma Contains_spec (s sub : string) :
  Contains s sub = true <-> exists a b, s = (a ++ sub ++ b)%string.
Proof.
  induction s as [|c s IH]; cbn [Contains]; rewrite orb_true_iff, prefix_spec.
  - split.
    + intros [[b Hb]|H]; [|discriminate]. exists EmptyString, b. exact Hb.
    + intros (a & b & H). left. destruct a; [|discriminate]. exists b. exact H.
  - rewrite IH. split.
    + intros [[b Hb]|(a & b & H)].
      * exists EmptyString, b. exact Hb.
      * exists (String c a), b. simpl. congruence.
    + intros (a & b & H). destruct a as [|d a].
      * left. exists b. exact H.
      * right. exists a, b. simpl in H. congruence.
Qed.

(** C5, as the specification words it, fails: the error of the empty
    registry carries "all services closed", and the text
    "all callbacks already closed" occurs in the error of neither [Close]
    nor [CloseOne]. *)
Lemma exhausted_error_lacks_spec_sentinel :
  returned (Root.Close [] tt fresh) =
    Some (Some "closer.Close: all services closed"%string) /\
  Contains "closer.Close: all services closed"
           "all callbacks already closed" = false /\
  returned (CloseOne tt fresh) =
    Some (Some "closer.CloseOne: all services closed"%string) /\
  Contains "closer.CloseOne: all services closed"
           "all callbacks already closed" = false.
Proof. repeat split. Qed.

(** C5, amended: when no unclosed callback remains, the error of [Close]
    (both files) and of [CloseOne] is the name of the method, ": " and the
    constant [ErrAllServicesClosed], which is "all services closed"; the
    constant is a substring of the text. *)
Theorem exhausted_error_contains_ErrAllServicesClosed {Ctx World : Type}
    (oracle : list nat) (ctx : Ctx) (s : State Ctx World) :
  mu (cl s) = false ->
  size (cl s) <= i (cl s) ->
  ErrAllServicesClosed = "all services closed"%string /\
  returned (Root.Close oracle ctx s) =
    Some (Some ("closer.Close: " ++ ErrAllServicesClosed)%string) /\
  returned (Sub.Close ctx s) =
    Some (Some ("closer.Close: " ++ ErrAllServicesClosed)%string) /\
  returned (CloseOne ctx s) =
    Some (Some ("closer.CloseOne: " ++ ErrAllServicesClosed)%string) /\
  Contains ("closer.Close: " ++ ErrAllServicesClosed) ErrAllServicesClosed = true /\
  Contains ("closer.CloseOne: " ++ ErrAllServicesClosed) ErrAllServicesClosed = true.
Proof.
  destruct s as [[m fs n k] w t]. simpl. intros Hm Hge. subst m.
  rewrite Root_Close_exhausted, Sub_Close_exhausted, CloseOne_exhausted
    by exact Hge.
  repeat split.
Qed.

Lemma exhausted_error_contains_ErrAllServicesClosed_witness :
  ErrAllServicesClosed = "all services closed"%string /\
  returned (Root.Close [] tt fresh) =
    Some (Some ("closer.Close: " ++ ErrAllServicesClosed)%string) /\
  returned (Sub.Close tt fresh) =
    Some (Some ("closer.Close: " ++ ErrAllServicesClosed)%string) /\
  returned (CloseOne tt fresh) =
    Some (Some ("closer.CloseOne: " ++ ErrAllServicesClosed)%string) /\
  Contains ("closer.Close: " ++ ErrAllServicesClosed) ErrAllServicesClosed = true /\
  Contains ("closer.CloseOne: " ++ ErrAllServicesClosed) ErrAllServicesClosed = true.
Proof.
  apply (exhausted_error_contains_ErrAllServicesClosed [] tt fresh).
  - reflexivity.
  - simpl. lia.
Defined.

(** ** One callback per [CloseOne] *)

Section Drain.

Context {Ctx World : Type}.

Lemma CloseOne_n_spec (ctx : Ctx) (fs : list (Func Ctx World)) (n : Z) (j : nat) :
  forall k (w : World) t,
    0 <= k -> n = Z.of_nat (length fs) -> n <= int_max ->
    k + Z.of_nat j <= n ->
    let wr := run_order ctx fs (seq (Z.to_nat k) j) w in
    exists t',
      CloseOne_n j ctx (mkState (mkCloser false fs n k) w t) =
      Done (map snd (snd wr))
           (mkState (mkCloser false fs n (k + Z.of_nat j)) (fst wr) t') /\
      calls_of t' = calls_of t ++ snd wr.
Proof.
  induction j as [|j IH]; intros k w t Hk Hn Hmax Hj wr.
  - exists t. subst wr. simpl. rewrite Z.add_0_r, app_nil_r.
    split; reflexivity.
  - destruct (nth_error fs (Z.to_nat k)) as [f|] eqn:E.
    2:{ apply nth_error_None in E. exfalso. lia. }
    subst wr. cbn [seq run_order CloseOne_n]. rewrite E.
    unfold bind at 1.
    rewrite (CloseOne_next ctx fs n k w t f) by (assumption || lia).
    rewrite wrap_id by (unfold int_min; lia).
    destruct (IH (k + 1) (fst (f ctx w))
                (t ++ [EvLock; EvRead Fi; EvRead Fi; EvRead Fsize; EvRead Fi;
                       EvWrite Fi; EvUnlock; EvRead Ffuncs;
                       EvCall (Z.to_nat k) (snd (f ctx w))]))
      as (t' & Erun & Ecalls); try lia.
    replace (Z.to_nat (k + 1)) with (S (Z.to_nat k)) in * by lia.
    exists t'. unfold bind at 1. rewrite Erun. unfold ret.
    cbn [fst snd map]. split.
    + replace (k + 1 + Z.of_nat j) with (k + Z.of_nat (S j)) by lia.
      reflexivity.
    + rewrite Ecalls, calls_of_app. simpl. rewrite <- app_assoc.
      reflexivity.
Qed.

End Drain.

(** C1: on a registry of [N] callbacks none of which is closed, the
    [(j+1)]-th call of [CloseOne] ([j < N]) invokes the callback of slot [j],
    and only it, once, and returns the error of that invocation as it is;
    after [N] calls the slots invoked are [0, 1, ..., N-1] in this order; the
    [(N+1)]-th call invokes nothing and returns
    "closer.CloseOne: all services closed". *)
Theorem CloseOne_closes_in_registration_order {Ctx World : Type} (ctx : Ctx)
    (s : State Ctx World) :
  wf (cl s) ->
  i (cl s) = 0 ->
  let fs := funcs (cl s) in
  let N := length fs in
  (forall (j : nat) (f : Func Ctx World),
     nth_error fs j = Some f ->
     exists errs s_j s_j',
       CloseOne_n j ctx s = Done errs s_j /\
       CloseOne ctx s_j = Done (snd (f ctx (world s_j))) s_j' /\
       world s_j' = fst (f ctx (world s_j)) /\
       calls_of (trace s_j') =
         calls_of (trace s_j) ++ [(j, snd (f ctx (world s_j)))]) /\
  (exists errs s_N s',
     CloseOne_n N ctx s = Done errs s_N /\
     calls_of (trace s_N) =
       calls_of (trace s) ++ snd (run_order ctx fs (seq 0 N) (world s)) /\
     map fst (snd (run_order ctx fs (seq 0 N) (world s))) = seq 0 N /\
     errs = map snd (snd (run_order ctx fs (seq 0 N) (world s))) /\
     world s_N = fst (run_order ctx fs (seq 0 N) (world s)) /\
     CloseOne ctx s_N =
       Done (Errorf "closer.CloseOne" ErrAllServicesClosed) s' /\
     calls_of (trace s') = calls_of (trace s_N) /\
     cl s' = cl s_N /\ world s' = world s_N).
Proof.
  destruct s as [[m fs n k] w t]. unfold wf, inv. simpl.
  intros (Hm & (Hk & Hn) & Hmax) Hi. subst m k. split.
  - intros j f Hf.
    assert (Hj : (j < length fs)%nat) by (apply nth_error_Some; congruence).
    destruct (CloseOne_n_spec ctx fs n j 0 w t) as (t' & Erun & Ecalls);
      try lia.
    simpl in Erun. rewrite Erun.
    do 3 eexists. split; [reflexivity|].
    rewrite (CloseOne_next ctx fs n (Z.of_nat j) _ t' f)
      by (try lia; rewrite Nat2Z.id; exact Hf).
    split; [reflexivity|]. simpl. split; [reflexivity|].
    rewrite calls_of_app, Nat2Z.id. reflexivity.
  - destruct (CloseOne_n_spec ctx fs n (length fs) 0 w t)
      as (t' & Erun & Ecalls); try lia.
    simpl in Erun. rewrite Erun.
    do 3 eexists. split; [reflexivity|]. simpl.
    split; [exact Ecalls|].
    split.
    { apply map_fst_run_order. intros slot Hin. apply in_seq in Hin. lia. }
    split; [reflexivity|]. split; [reflexivity|].
    rewrite CloseOne_exhausted by lia.
    split; [reflexivity|]. simpl.
    rewrite calls_of_app, app_nil_r. auto.
Qed.

Lemma CloseOne_closes_in_registration_order_witness :
  let fs := funcs (cl three) in
  let N := length fs in
  (forall (j : nat) (f : Func unit nat),
     nth_error fs j = Some f ->
     exists errs s_j s_j',
       CloseOne_n j tt three = Done errs s_j /\
       CloseOne tt s_j = Done (snd (f tt (world s_j))) s_j' /\
       world s_j' = fst (f tt (world s_j)) /\
       calls_of (trace s_j') =
         calls_of (trace s_j) ++ [(j, snd (f tt (world s_j)))]) /\
  (exists errs s_N s',
     CloseOne_n N tt three = Done errs s_N /\
     calls_of (trace s_N) =
       calls_of (trace three) ++ snd (run_order tt fs (seq 0 N) (world three)) /\
     map fst (snd (run_order tt fs (seq 0 N) (world three))) = seq 0 N /\
     errs = map snd (snd (run_order tt fs (seq 0 N) (world three))) /\
     world s_N = fst (run_order tt fs (seq 0 N) (world three)) /\
     CloseOne tt s_N =
       Done (Errorf "closer.CloseOne" ErrAllServicesClosed) s' /\
     calls_of (trace s') = calls_of (trace s_N) /\
     cl s' = cl s_N /\ world s' = world s_N).
Proof.
  apply (CloseOne_closes_in_registration_order tt three).
  - unfold wf, inv, int_max. simpl. eval_wrap. lia.
  - reflexivity.
Defined.

(** The three callbacks of [three], closed one by one: the second call
    returns the text of the second callback, the fourth the exhaustion
    error. *)
Example CloseOne_three :
  returned (CloseOne_n 4 tt three) =
  Some [None; Some "second"%string; None;
        Some "closer.CloseOne: all services closed"%string] /\
  calls_of (trace (final (CloseOne_n 4 tt three))) =
  [(0%nat, None); (1%nat, Some "second"%string); (2%nat, None)].
Proof. split; reflexivity. Qed.

(** ** The error of [Close] *)

Lemma report_none_iff (fErrors : list string) :
  report fErrors = None <-> fErrors = [].
Proof. destruct fErrors; simpl; unfold Errorf; split; congruence. Qed.

Lemma failures_length (calls : list (nat * error)) :
  failures calls = length (flat_map (fun r => msg_of (snd r)) calls).
Proof.
  unfold failures. induction calls as [|[slot res] calls IH]; simpl.
  - reflexivity.
  - rewrite length_app, <- IH. destruct res; reflexivity.
Qed.

Lemma in_slot_order_perm (calls : list (nat * error)) (lo k : nat) :
  Permutation (map fst calls) (seq lo k) ->
  Permutation (in_slot_order calls lo k)
              (flat_map (fun r => msg_of (snd r)) calls).
Proof.
  intros Hperm. unfold in_slot_order.
  rewrite <- by_slot_keys.
  - apply Permutation_flat_map. symmetry. exact Hperm.
  - apply (Permutation_NoDup (l := seq lo k)); [|apply seq_NoDup].
    symmetry. exact Hperm.
Qed.

Lemma sapp_nil_r (a : string) : (a ++ "")%string = a.
Proof. induction a as [|c a IH]; simpl; congruence. Qed.

Lemma sapp_assoc (a b c : string) :
  ((a ++ b) ++ c)%string = (a ++ b ++ c)%string.
Proof. induction a as [|x a IH]; simpl; congruence. Qed.

Lemma Join_contains (sep m : string) (l : list string) :
  In m l -> exists a b, Join l sep = (a ++ m ++ b)%string.
Proof.
  induction l as [|x l IH]; intros Hin; [contradiction|].
  cbn [Join]. destruct l as [|y l].
  - destruct Hin as [E|[]]. subst x.
    exists EmptyString, EmptyString. simpl. symmetry. apply sapp_nil_r.
  - destruct Hin as [E|Hin].
    + subst x. exists EmptyString, (sep ++ Join (y :: l) sep)%string.
      reflexivity.
    + destruct (IH Hin) as (a & b & E).
      exists (x ++ sep ++ a)%string, b. rewrite E.
      rewrite !sapp_assoc. reflexivity.
Qed.

(** [Join] is [String.concat] of the standard library, separator first. *)
Lemma Join_concat (l : list string) (sep : string) :
  Join l sep = String.concat sep l.
Proof.
  induction l as [|x l IH]; [reflexivity|].
  cbn [Join String.concat]. destruct l as [|y l]; [reflexivity|].
  rewrite IH. reflexivity.
Qed.

(** The text that [Close] returns for a non-empty list of failure texts
    contains each of them. *)
Lemma report_contains (fErrors : list string) (m : string) :
  In m fErrors ->
  exists text, report fErrors = Some text /\ Contains text m = true.
Proof.
  intros Hin. destruct fErrors as [|x l] eqn:E; [contradiction|].
  destruct (Join_contains "; " m (x :: l) Hin) as (a & b & EJ).
  eexists. split; [reflexivity|].
  apply Contains_spec. exists ("closer.Close: " ++ a)%string, b.
  rewrite EJ, sapp_assoc. reflexivity.
Qed.

(** A failed invocation of a slot of the range shows in [in_slot_order]. *)
Lemma failure_in_slot_order (calls : list (nat * error)) (lo k slot : nat)
    (m : string) :
  In (slot, Some m) calls -> In slot (seq lo k) ->
  In m (in_slot_order calls lo k).
Proof.
  intros Hin Hslot. unfold in_slot_order. apply in_flat_map.
  exists slot. split; [exact Hslot|].
  unfold by_slot. apply in_flat_map. exists (slot, Some m).
  split; [exact Hin|]. simpl. rewrite Nat.eqb_refl. left. reflexivity.
Qed.

(** C2: [Close] on a registry with unclosed callbacks invokes each of them
    once (in the order the scheduler chose), and returns a non-nil error
    exactly when one of these invocations failed; the error is then
    "closer.Close: " followed by the texts of the failed invocations joined
    by "; ", by increasing slot, each text once.  The text is also given
    without [Join]: it is "closer.Close: " and [String.concat "; "] of these
    texts, that is the text itself when one invocation failed and the first
    text, "; " and the rest when several did; and it contains the text of
    every failed invocation. *)
Theorem Close_reports_failures {Ctx World : Type} (oracle : list nat) (ctx : Ctx)
    (s : State Ctx World) :
  wf (cl s) ->
  i (cl s) < size (cl s) ->
  let lo := Z.to_nat (i (cl s)) in
  let k := Z.to_nat (size (cl s) - i (cl s)) in
  exists e s' calls,
    Root.Close oracle ctx s = Done e s' /\
    calls_of (trace s') = calls_of (trace s) ++ calls /\
    Permutation (map fst calls) (seq lo k) /\
    calls = snd (run_order ctx (funcs (cl s)) (map fst calls) (world s)) /\
    (e <> None <-> (0 < failures calls)%nat) /\
    ((0 < failures calls)%nat ->
     e = Some ("closer.Close: " ++ Join (in_slot_order calls lo k) "; ")%string) /\
    Permutation (in_slot_order calls lo k)
                (flat_map (fun r => msg_of (snd r)) calls) /\
    length (in_slot_order calls lo k) = failures calls /\
    ((0 < failures calls)%nat ->
     e = Some ("closer.Close: " ++
               String.concat "; " (in_slot_order calls lo k))%string) /\
    (forall m, in_slot_order calls lo k = [m] ->
       e = Some ("closer.Close: " ++ m)%string) /\
    (forall m1 m2 rest, in_slot_order calls lo k = m1 :: m2 :: rest ->
       e = Some ("closer.Close: " ++ m1 ++ "; " ++
                 String.concat "; " (m2 :: rest))%string) /\
    (forall slot m, In (slot, Some m) calls ->
       exists text, e = Some text /\ Contains text m = true).
Proof.
  destruct s as [[m fs n j] w t]. unfold wf, inv. simpl.
  intros (Hm & (Hj & Hn) & Hmax) Hlt. subst m.
  replace (Z.to_nat (n - j)) with (length fs - Z.to_nat j)%nat by lia.
  set (lo := Z.to_nat j). set (k := (length fs - lo)%nat).
  rewrite Root_Close_run by lia. fold lo. fold k.
  set (order := order_of oracle lo k).
  set (calls := snd (run_order ctx fs order w)).
  assert (Hperm : Permutation order (seq lo k)) by apply order_of_perm.
  assert (Hkeys : map fst calls = order).
  { apply map_fst_run_order. intros slot Hin.
    apply (Permutation_in _ Hperm) in Hin. apply in_seq in Hin.
    unfold k, lo in Hin. lia. }
  assert (Hmsgs : Permutation (in_slot_order calls lo k)
                    (flat_map (fun r => msg_of (snd r)) calls)).
  { apply in_slot_order_perm. rewrite Hkeys. exact Hperm. }
  assert (Hlen : length (in_slot_order calls lo k) = failures calls).
  { rewrite failures_length. apply Permutation_length. exact Hmsgs. }
  exists (report (in_slot_order calls lo k)). eexists. exists calls.
  split; [reflexivity|]. cbn [trace cl world funcs].
  split.
  { rewrite !calls_of_app, calls_of_call_events. simpl.
    rewrite app_nil_r. reflexivity. }
  split; [rewrite Hkeys; exact Hperm|].
  split; [rewrite Hkeys; reflexivity|].
  split.
  { rewrite report_none_iff, <- Hlen.
    destruct (in_slot_order calls lo k); simpl; split; intros H;
      try lia; congruence. }
  split.
  { intros Hpos. rewrite <- Hlen in Hpos.
    destruct (in_slot_order calls lo k); [simpl in Hpos; lia|reflexivity]. }
  split; [exact Hmsgs|]. split; [exact Hlen|].
  split.
  { intros Hpos. rewrite <- Hlen in Hpos. rewrite <- Join_concat.
    destruct (in_slot_order calls lo k); [simpl in Hpos; lia|reflexivity]. }
  split.
  { intros m Hone. rewrite Hone. reflexivity. }
  split.
  { intros m1 m2 rest Htwo. rewrite Htwo, <- Join_concat. reflexivity. }
  intros slot m Hin. apply report_contains.
  apply (failure_in_slot_order calls lo k slot m Hin).
  apply (Permutation_in _ Hperm). rewrite <- Hkeys.
  apply (in_map fst) in Hin. exact Hin.
Qed.

Lemma Close_reports_failures_witness :
  let lo := Z.to_nat (i (cl three)) in
  let k := Z.to_nat (size (cl three) - i (cl three)) in
  exists e s' calls,
    Root.Close [2%nat; 0%nat] tt three = Done e s' /\
    calls_of (trace s') = calls_of (trace three) ++ calls /\
    Permutation (map fst calls) (seq lo k) /\
    calls = snd (run_order tt (funcs (cl three)) (map fst calls) (world three)) /\
    (e <> None <-> (0 < failures calls)%nat) /\
    ((0 < failures calls)%nat ->
     e = Some ("closer.Close: " ++ Join (in_slot_order calls lo k) "; ")%string) /\
    Permutation (in_slot_order calls lo k)
                (flat_map (fun r => msg_of (snd r)) calls) /\
    length (in_slot_order calls lo k) = failures calls /\
    ((0 < failures calls)%nat ->
     e = Some ("closer.Close: " ++
               String.concat "; " (in_slot_order calls lo k))%string) /\
    (forall m, in_slot_order calls lo k = [m] ->
       e = Some ("closer.Close: " ++ m)%string) /\
    (forall m1 m2 rest, in_slot_order calls lo k = m1 :: m2 :: rest ->
       e = Some ("closer.Close: " ++ m1 ++ "; " ++
                 String.concat "; " (m2 :: rest))%string) /\
    (forall slot m, In (slot, Some m) calls ->
       exists text, e = Some text /\ Contains text m = true).
Proof.
  apply (Close_reports_failures [2%nat; 0%nat] tt three).
  - unfold wf, inv, int_max. simpl. eval_wrap. lia.
  - simpl. eval_wrap. lia.
Defined.

(** Three callbacks, the second fails: whatever the order of the
    goroutines, the error carries its text once and every callback has run
    once (the world counts three invocations). *)
Example Close_three :
  returned (Root.Close [2%nat; 0%nat] tt three) =
    Some (Some "closer.Close: second"%string) /\
  calls_of (trace (final (Root.Close [2%nat; 0%nat] tt three))) =
    [(2%nat, None); (0%nat, None); (1%nat, Some "second"%string)] /\
  world (final (Root.Close [2%nat; 0%nat] tt three)) = 3%nat /\
  returned (Sub.Close tt three) = Some (Some "closer.Close: second"%string).
Proof. repeat split. Qed.

(** Two failures are joined by a semicolon and a space, by slot, although
    the second goroutine ran first. *)
Example Close_two_failures :
  returned (Root.Close [1%nat] tt
              (final (Add_all [ko "a"; ko "b"] fresh))) =
    Some (Some "closer.Close: a; b"%string) /\
  calls_of (trace (final (Root.Close [1%nat] tt
                            (final (Add_all [ko "a"; ko "b"] fresh))))) =
    [(1%nat, Some "b"%string); (0%nat, Some "a"%string)].
Proof. split; reflexivity. Qed.

(** ** Cursor, size and the stored callbacks *)

Section Registrations.

Context {Ctx World : Type}.

Lemma is_close_adds (ops : list (op (Ctx:=Ctx) (World:=World))) :
  forallb is_close ops = true -> adds ops = O.
Proof.
  induction ops as [|o ops IH]; intros H; [reflexivity|].
  cbn [forallb] in H. apply andb_prop in H. destruct H as [Ho Hops].
  destruct o; try discriminate; cbn [adds]; apply IH; exact Hops.
Qed.

Lemma Add_all_spec (gs : list (Func Ctx World)) :
  forall fs n k (w : World) t,
    0 <= n -> n + Z.of_nat (length gs) <= int_max ->
    exists t',
      Add_all gs (mkState (mkCloser false fs n k) w t) =
      Done tt (mkState (mkCloser false (fs ++ gs) (n + Z.of_nat (length gs)) k) w t') /\
      calls_of t' = calls_of t.
Proof.
  induction gs as [|g gs IH]; intros fs n k w t Hn Hmax.
  - exists t. simpl. rewrite app_nil_r, Z.add_0_r. split; reflexivity.
  - cbn [Add_all length] in *. unfold bind. rewrite Add_step.
    rewrite wrap_id by (unfold int_min; lia).
    destruct (IH (fs ++ [g]) (n + 1) k w
                (t ++ [EvLock; EvRead Ffuncs; EvWrite Ffuncs;
                       EvRead Fsize; EvWrite Fsize; EvUnlock]))
      as (t' & Erun & Ecalls); try lia.
    exists t'. rewrite Erun, Ecalls, calls_of_app, <- app_assoc. simpl.
    rewrite app_nil_r. split; [|reflexivity].
    replace (n + 1 + Z.of_nat (length gs)) with (n + Z.of_nat (S (length gs)))
      by lia.
    reflexivity.
Qed.

End Registrations.

(** C3: after [Close] on a registry with unclosed callbacks, whatever the
    callbacks returned, the cursor equals the size, the size and the stored
    callbacks are unchanged, and every following sequence of [Close] and
    [CloseOne] calls returns the exhaustion error each time, invokes nothing
    and changes nothing. *)
Theorem Close_exhausts_the_registry {Ctx World : Type} (oracle : list nat)
    (ctx : Ctx) (s : State Ctx World) :
  wf (cl s) ->
  i (cl s) < size (cl s) ->
  exists e s',
    Root.Close oracle ctx s = Done e s' /\
    i (cl s') = size (cl s') /\
    size (cl s') = size (cl s) /\
    funcs (cl s') = funcs (cl s) /\
    returned (Size s') = returned (Size s) /\
    forall ops,
      forallb is_close ops = true ->
      exists s'',
        run_ops ops s' = Done (map exhausted_result ops) s'' /\
        cl s'' = cl s' /\
        calls_of (trace s'') = calls_of (trace s').
Proof.
  intros Hwf Hlt.
  assert (Hwf' := Hwf).
  destruct s as [[m fs n j] w t]. unfold wf, inv in Hwf. simpl in *.
  destruct Hwf as (Hm & (Hj & Hn) & Hmax). subst m.
  rewrite Root_Close_run by lia.
  do 2 eexists. split; [reflexivity|]. cbn [cl i size funcs].
  repeat (split; [reflexivity|]).
  intros ops Hops.
  match goal with |- exists s'', run_ops ops ?st = _ /\ _ => set (s' := st) end.
  assert (Hwf1 : wf (cl s')) by (unfold wf, inv; simpl; lia).
  destruct (run_ops_wf ops s' Hwf1) as (rs & s'' & E & _ & _ & _ & _ & Hx).
  { rewrite is_close_adds by exact Hops. simpl. lia. }
  destruct (Hx Hops eq_refl) as (Ers & Ec & _ & Et).
  exists s''. rewrite E, Ers. auto.
Qed.

Lemma Close_exhausts_the_registry_witness :
  exists e s',
    Root.Close [1%nat] tt three = Done e s' /\
    i (cl s') = size (cl s') /\
    size (cl s') = size (cl three) /\
    funcs (cl s') = funcs (cl three) /\
    returned (Size s') = returned (Size three) /\
    forall ops,
      forallb is_close ops = true ->
      exists s'',
        run_ops ops s' = Done (map exhausted_result ops) s'' /\
        cl s'' = cl s' /\
        calls_of (trace s'') = calls_of (trace s').
Proof.
  apply (Close_exhausts_the_registry [1%nat] tt three).
  - unfold wf, inv, int_max. simpl. eval_wrap. lia.
  - simpl. eval_wrap. lia.
Defined.

(** C6, as stated, fails: a registry exhausted by [Close] is open again
    after one more [Add] (cursor 1, size 2); and [reset] of
    [src/closer/closer.go] moves the cursor of an exhausted registry back
    to 0. *)
Lemma exhausted_registry_reopens :
  let s := final (run_ops [OpAdd ok; OpClose [] tt] fresh) in
  wf (cl s) /\
  i (cl s) = size (cl s) /\
  i (cl (final (run_ops [OpAdd ok] s))) <
    size (cl (final (run_ops [OpAdd ok] s))) /\
  i (cl (final (Sub.reset s))) < i (cl s) /\
  i (cl (final (Sub.reset s))) < size (cl (final (Sub.reset s))).
Proof.
  unfold wf, inv, int_max. simpl. eval_wrap. lia.
Qed.

(** C6, amended: no sequence of [Add], [Close], [CloseOne] and [Size] calls
    decreases the cursor or the size, and a sequence without [Add] keeps an
    exhausted registry exhausted. *)
Theorem cursor_never_moves_back {Ctx World : Type}
    (ops : list (op (Ctx:=Ctx) (World:=World))) (s : State Ctx World) :
  wf (cl s) ->
  Z.of_nat (adds ops) + size (cl s) <= int_max ->
  exists rs s',
    run_ops ops s = Done rs s' /\
    i (cl s) <= i (cl s') /\
    size (cl s) <= size (cl s') /\
    (adds ops = O -> i (cl s) = size (cl s) -> i (cl s') = size (cl s')).
Proof.
  intros Hwf Hadd.
  destruct (run_ops_wf ops s Hwf Hadd)
    as (rs & s' & E & Hwf' & Hi & Hs & _ & _).
  exists rs, s'. split; [exact E|]. split; [exact Hi|]. split; [lia|].
  intros H0 Hex. rewrite H0 in Hs. simpl in Hs.
  destruct Hwf' as (_ & (Hi' & _) & _). lia.
Qed.

Lemma cursor_never_moves_back_witness :
  exists rs s',
    run_ops [OpCloseOne tt; OpSize; OpClose [] tt; OpCloseSync tt] three =
      Done rs s' /\
    i (cl three) <= i (cl s') /\
    size (cl three) <= size (cl s') /\
    (adds [OpCloseOne tt; OpSize; OpClose [] tt; OpCloseSync tt
           : op (Ctx:=unit) (World:=nat)] = O ->
     i (cl three) = size (cl three) -> i (cl s') = size (cl s')).
Proof.
  apply (cursor_never_moves_back
           [OpCloseOne tt; OpSize; OpClose [] tt; OpCloseSync tt] three).
  - unfold wf, inv, int_max. simpl. eval_wrap. lia.
  - unfold int_max. simpl. eval_wrap. lia.
Defined.

(** C7: after the [Add] of [N] callbacks [Size] returns [N] more than
    before ([N] itself from the empty registry; one more after one [Add]),
    the stored sequence is the old one followed by the new callbacks in
    order, and no later sequence of [Close] and [CloseOne] calls changes
    what [Size] returns or the stored sequence.  A Go [int] holds the
    count: the total stays within [int_max]. *)
Theorem Size_counts_registrations {Ctx World : Type}
    (fs : list (Func Ctx World)) (ops : list (op (Ctx:=Ctx) (World:=World)))
    (s : State Ctx World) :
  wf (cl s) ->
  size (cl s) + Z.of_nat (length fs) <= int_max ->
  forallb is_close ops = true ->
  exists s1 rs s2,
    Add_all fs s = Done tt s1 /\
    returned (Size s) = Some (size (cl s)) /\
    returned (Size s1) = Some (size (cl s) + Z.of_nat (length fs)) /\
    (cl s = zero ->
     returned (Size s1) = Some (Z.of_nat (length fs)) /\ funcs (cl s1) = fs) /\
    funcs (cl s1) = funcs (cl s) ++ fs /\
    run_ops ops s1 = Done rs s2 /\
    returned (Size s2) = returned (Size s1) /\
    funcs (cl s2) = funcs (cl s1).
Proof.
  intros Hwf Hmax Hops.
  destruct s as [[m gs n k] w t]. unfold wf, inv in Hwf. simpl in *.
  destruct Hwf as (Hm & (Hk & Hn) & Hn'). subst m.
  destruct (Add_all_spec fs gs n k w t) as (t' & Erun & _); try lia.
  rewrite Erun.
  match type of Erun with _ = Done tt ?st => set (s1 := st) end.
  assert (Hwf1 : wf (cl s1)).
  { unfold wf, inv. simpl. rewrite length_app. lia. }
  destruct (run_ops_wf ops s1 Hwf1) as (rs & s2 & E & _ & _ & Hs & Hf & _).
  { rewrite is_close_adds by exact Hops. simpl. lia. }
  rewrite is_close_adds in Hs, Hf by exact Hops.
  exists s1, rs, s2. split; [reflexivity|]. split; [reflexivity|].
  split; [reflexivity|]. split.
  { intros Hz. inversion Hz. subst gs n k. split; reflexivity. }
  split; [reflexivity|]. split; [exact E|].
  split.
  - unfold Size, get_size. simpl. rewrite Hs. simpl. rewrite Z.add_0_r.
    reflexivity.
  - apply Hf. reflexivity.
Qed.

Lemma Size_counts_registrations_witness :
  exists s1 rs s2,
    Add_all [ok; ko "second"; ok] fresh = Done tt s1 /\
    returned (Size fresh) = Some (size (cl fresh)) /\
    returned (Size s1) = Some (size (cl fresh) + Z.of_nat 3) /\
    (cl fresh = zero ->
     returned (Size s1) = Some (Z.of_nat 3) /\
     funcs (cl s1) = [ok; ko "second"; ok]) /\
    funcs (cl s1) = funcs (cl fresh) ++ [ok; ko "second"; ok] /\
    run_ops [OpCloseOne tt; OpClose [] tt; OpCloseOne tt] s1 = Done rs s2 /\
    returned (Size s2) = returned (Size s1) /\
    funcs (cl s2) = funcs (cl s1).
Proof.
  apply (Size_counts_registrations [ok; ko "second"; ok]
           [OpCloseOne tt; OpClose [] tt; OpCloseOne tt] fresh).
  - unfold wf, inv, int_max. simpl. lia.
  - unfold int_max. simpl. lia.
  - reflexivity.
Defined.

(** The four registries of the size test: 0, 1, 2 and 3 callbacks. *)
Example Size_after_Adds :
  returned (bind (Add_all []) (fun _ => Size) fresh) = Some 0 /\
  returned (bind (Add_all [ok]) (fun _ => Size) fresh) = Some 1 /\
  returned (bind (Add_all [ok; ok]) (fun _ => Size) fresh) = Some 2 /\
  returned (bind (Add_all [ok; ok; ok]) (fun _ => Size) fresh) = Some 3.
Proof. repeat split. Qed.

(** ** The invariant and the index accesses *)

(** C8: every sequence of [Add], [Close], [CloseOne] and [Size] calls on
    a registry that satisfies [0 <= i <= size] and [size = len(funcs)]
    returns normally -- the panics of [c.funcs[prev]] and of
    [c.funcs[c.i:]] are not reached -- and leaves a registry that satisfies
    the invariant again.  A Go [int] holds the count: the number of [Add]
    calls keeps [size] within [int_max]. *)
Theorem operations_keep_the_invariant {Ctx World : Type}
    (ops : list (op (Ctx:=Ctx) (World:=World))) (s : State Ctx World) :
  wf (cl s) ->
  Z.of_nat (adds ops) + size (cl s) <= int_max ->
  exists rs s',
    run_ops ops s = Done rs s' /\
    inv (cl s') /\
    mu (cl s') = false /\
    (i (cl s') < size (cl s') ->
     0 <= i (cl s') < Z.of_nat (length (funcs (cl s')))) /\
    0 <= i (cl s') <= Z.of_nat (length (funcs (cl s'))).
Proof.
  intros Hwf Hadd.
  destruct (run_ops_wf ops s Hwf Hadd) as (rs & s' & E & Hwf' & _).
  exists rs, s'. split; [exact E|].
  destruct Hwf' as (Hm & Hinv & _). split; [exact Hinv|].
  split; [exact Hm|]. unfold inv in Hinv. lia.
Qed.

Lemma operations_keep_the_invariant_witness :
  exists rs s',
    run_ops [OpAdd ok; OpCloseOne tt; OpAdd (ko "late"); OpClose [1%nat] tt;
             OpCloseOne tt; OpAdd ok; OpCloseSync tt] three = Done rs s' /\
    inv (cl s') /\
    mu (cl s') = false /\
    (i (cl s') < size (cl s') ->
     0 <= i (cl s') < Z.of_nat (length (funcs (cl s')))) /\
    0 <= i (cl s') <= Z.of_nat (length (funcs (cl s'))).
Proof.
  apply (operations_keep_the_invariant
           [OpAdd ok; OpCloseOne tt; OpAdd (ko "late"); OpClose [1%nat] tt;
            OpCloseOne tt; OpAdd ok; OpCloseSync tt] three).
  - unfold wf, inv, int_max. simpl. eval_wrap. lia.
  - unfold int_max. simpl. eval_wrap. lia.
Defined.

(** The panics exist in the code: they are reached from a struct that
    breaks the invariant ([size] 2 with one callback stored). *)
Example index_out_of_range_without_invariant :
  (exists s', CloseOne tt (mkState (mkCloser false [ok] 2 1) 0%nat []) =
              Panic "index out of range" s') /\
  (exists s', Root.Close [] tt (mkState (mkCloser false [ok] 3 2) 0%nat []) =
              Panic "slice bounds out of range" s').
Proof. split; eexists; reflexivity. Qed.

(** ** The two versions of [Close] *)

Section TwoVersions.

Context {Ctx World : Type}.

Implicit Types (fs : list (Func Ctx World)) (w : World).

Lemma run_order_insensitive ctx fs w0 (order : list nat) :
  order_insensitive ctx fs ->
  forall w, snd (run_order ctx fs order w) = calls_at ctx fs w0 order.
Proof.
  intros Hpure. induction order as [|slot order IH]; intros w.
  - reflexivity.
  - cbn [run_order calls_at flat_map].
    destruct (nth_error fs slot) as [f|] eqn:E.
    + simpl. rewrite IH. f_equal. f_equal.
      apply Hpure. eapply nth_error_In. exact E.
    + apply IH.
Qed.

Lemma map_fst_calls_at ctx fs w0 (order : list nat) :
  (forall slot, In slot order -> (slot < length fs)%nat) ->
  map fst (calls_at ctx fs w0 order) = order.
Proof.
  induction order as [|slot order IH]; intros Hin.
  - reflexivity.
  - cbn [calls_at flat_map].
    destruct (nth_error fs slot) as [f|] eqn:E.
    + simpl. f_equal. apply IH. intros s Hs. apply Hin. right. exact Hs.
    + apply nth_error_None in E.
      specialize (Hin slot (or_introl eq_refl)). lia.
Qed.

Lemma in_slot_order_in_order (calls : list (nat * error)) (lo k : nat) :
  map fst calls = seq lo k ->
  in_slot_order calls lo k = flat_map (fun r => msg_of (snd r)) calls.
Proof.
  intros Hkeys. unfold in_slot_order. rewrite <- Hkeys.
  apply by_slot_keys. rewrite Hkeys. apply seq_NoDup.
Qed.

Lemma in_slot_order_calls_at ctx fs w0 (order : list nat) (lo k : nat) :
  Permutation order (seq lo k) ->
  (lo + k <= length fs)%nat ->
  in_slot_order (calls_at ctx fs w0 order) lo k =
  in_slot_order (calls_at ctx fs w0 (seq lo k)) lo k.
Proof.
  intros Hperm Hlen. unfold in_slot_order.
  assert (Hvalid : forall l, Permutation l (seq lo k) ->
                     forall slot, In slot l -> (slot < length fs)%nat).
  { intros l Hl slot Hin. apply (Permutation_in _ Hl) in Hin.
    apply in_seq in Hin. lia. }
  assert (Hslot : forall l, Permutation l (seq lo k) ->
            forall slot f, In slot (seq lo k) -> nth_error fs slot = Some f ->
              by_slot (calls_at ctx fs w0 l) slot = msg_of (snd (f ctx w0))).
  { intros l Hl slot f Hin Hf.
    apply (by_slot_present (calls_at ctx fs w0 l) (slot, snd (f ctx w0))).
    - rewrite map_fst_calls_at by (apply Hvalid; exact Hl).
      apply (Permutation_NoDup (l := seq lo k)); [|apply seq_NoDup].
      symmetry. exact Hl.
    - unfold calls_at. apply in_flat_map. exists slot. split.
      + apply (Permutation_in _ (Permutation_sym Hl)). exact Hin.
      + rewrite Hf. left. reflexivity. }
  apply flat_map_ext_in. intros slot Hin.
  destruct (nth_error fs slot) as [f|] eqn:E.
  - rewrite (Hslot order Hperm slot f Hin E).
    rewrite (Hslot (seq lo k) (Permutation_refl _) slot f Hin E).
    reflexivity.
  - apply nth_error_None in E. apply in_seq in Hin. lia.
Qed.

End TwoVersions.


(** Where the two versions of [Close] do agree: on every well-formed
    registry both return and leave the same struct; they return the same
    error, leave the same world and make the same invocations when the
    goroutines run in the order of the slots; and they return the same
    error under every scheduler when no callback's result depends on the
    world it runs in. *)
Theorem Close_versions_agree {Ctx World : Type} (oracle : list nat) (ctx : Ctx)
    (s : State Ctx World) :
  wf (cl s) ->
  exists e1 s1 e2 s2 e0 s0,
    Root.Close oracle ctx s = Done e1 s1 /\
    Sub.Close ctx s = Done e2 s2 /\
    Root.Close [] ctx s = Done e0 s0 /\
    cl s1 = cl s2 /\
    Permutation (map fst (calls_of (trace s1))) (map fst (calls_of (trace s2))) /\
    (e0 = e2 /\ cl s0 = cl s2 /\ world s0 = world s2 /\
     calls_of (trace s0) = calls_of (trace s2)) /\
    (order_insensitive ctx (funcs (cl s)) -> e1 = e2).
Proof.
  destruct s as [[m fs n j] w t]. unfold wf, inv. simpl.
  intros (Hm & (Hj & Hn) & Hmax). subst m.
  destruct (Z.lt_ge_cases j n) as [Hlt|Hge].
  - rewrite !Root_Close_run, Sub_Close_run by lia.
    set (lo := Z.to_nat j). set (k := (length fs - lo)%nat).
    rewrite order_of_in_order.
    assert (Hperm : Permutation (order_of oracle lo k) (seq lo k))
      by apply order_of_perm.
    assert (Hvalid : forall l, Permutation l (seq lo k) ->
                       forall slot, In slot l -> (slot < length fs)%nat).
    { intros l Hl slot Hin. apply (Permutation_in _ Hl) in Hin.
      apply in_seq in Hin. unfold k, lo in Hin. lia. }
    assert (Hkeys : forall l, Permutation l (seq lo k) ->
                      map fst (snd (run_order ctx fs l w)) = l).
    { intros l Hl. apply map_fst_run_order. apply Hvalid. exact Hl. }
    assert (Hin_order :
              in_slot_order (snd (run_order ctx fs (seq lo k) w)) lo k =
              flat_map (fun r => msg_of (snd r))
                       (snd (run_order ctx fs (seq lo k) w))).
    { apply in_slot_order_in_order. apply Hkeys. apply Permutation_refl. }
    do 6 eexists.
    split; [reflexivity|]. split; [reflexivity|]. split; [reflexivity|].
    cbn [cl world trace funcs]. split; [reflexivity|]. split.
    { rewrite !calls_of_app, !calls_of_call_events. simpl.
      rewrite !app_nil_r, !map_app.
      apply Permutation_app_head.
      rewrite !Hkeys by (exact Hperm || apply Permutation_refl).
      exact Hperm. }
    split.
    { rewrite Hin_order. split; [reflexivity|]. split; [reflexivity|].
      split; [reflexivity|].
      rewrite !calls_of_app, !calls_of_call_events. reflexivity. }
    intros Hpure. rewrite <- Hin_order. f_equal.
    rewrite !(run_order_insensitive ctx fs w) by exact Hpure.
    apply in_slot_order_calls_at; [exact Hperm|].
    unfold k, lo. lia.
  - rewrite !Root_Close_exhausted, Sub_Close_exhausted by lia.
    do 6 eexists.
    split; [reflexivity|]. split; [reflexivity|]. split; [reflexivity|].
    cbn [cl world trace]. split; [reflexivity|].
    split; [apply Permutation_refl|].
    split; [|reflexivity]. repeat split; reflexivity.
Qed.

Lemma Close_versions_agree_witness :
  exists e1 s1 e2 s2 e0 s0,
    Root.Close [2%nat; 1%nat] tt three = Done e1 s1 /\
    Sub.Close tt three = Done e2 s2 /\
    Root.Close [] tt three = Done e0 s0 /\
    cl s1 = cl s2 /\
    Permutation (map fst (calls_of (trace s1))) (map fst (calls_of (trace s2))) /\
    (e0 = e2 /\ cl s0 = cl s2 /\ world s0 = world s2 /\
     calls_of (trace s0) = calls_of (trace s2)) /\
    (order_insensitive tt (funcs (cl three)) -> e1 = e2).
Proof.
  apply (Close_versions_agree [2%nat; 1%nat] tt three).
  unfold wf, inv, int_max. simpl. eval_wrap. lia.
Defined.

(** The callbacks of [three] are order-insensitive; those of [racy] are
    not. *)
Example three_is_order_insensitive :
  order_insensitive tt (funcs (cl three)) /\
  ~ order_insensitive tt (funcs (cl racy)).
Proof.
  split.
  - intros f w w' Hin. simpl in Hin.
    destruct Hin as [E|[E|[E|[]]]]; subst f; reflexivity.
  - intros H. specialize (H check_flag true false).
    simpl in H. discriminate H. right. left. reflexivity.
Qed.

(** ** The mutex and the fields *)

Lemma skipn_length_app {A : Type} (l r : list A) : skipn (length l) (l ++ r) = r.
Proof. induction l as [|x l IH]; [reflexivity|exact IH]. Qed.

Lemma guarded_call_events (held : bool) (calls : list (nat * error))
    (b : list event) :
  guarded held (map (fun r => EvCall (fst r) (snd r)) calls ++ b) = guarded held b.
Proof.
  induction calls as [|r calls IH]; [reflexivity|exact IH].
Qed.

Section Locking.

Context {Ctx World : Type}.

(** [Add] touches the fields under the mutex only. *)
Lemma Add_is_guarded (f : Func Ctx World) (s : State Ctx World) :
  mu (cl s) = false -> guarded false (events_of (Add f) s) = true.
Proof.
  destruct s as [[m fs n k] w t]. simpl. intros Hm. subst m.
  unfold events_of. rewrite Add_step. simpl. rewrite skipn_length_app.
  reflexivity.
Qed.

(** [Close] touches the fields under the mutex only. *)
Lemma Close_is_guarded (oracle : list nat) (ctx : Ctx) (s : State Ctx World) :
  wf (cl s) -> guarded false (events_of (Root.Close oracle ctx) s) = true.
Proof.
  destruct s as [[m fs n k] w t]. unfold wf, inv. simpl.
  intros (Hm & (Hk & Hn) & Hmax). subst m. unfold events_of.
  destruct (Z.lt_ge_cases k n) as [Hlt|Hge].
  - rewrite Root_Close_run by lia. simpl. rewrite skipn_length_app.
    simpl. unfold call_events. rewrite guarded_call_events. reflexivity.
  - rewrite Root_Close_exhausted by lia. simpl. rewrite skipn_length_app.
    reflexivity.
Qed.

(** [CloseOne] that finds a callback reads [funcs] after [Unlock]. *)
Lemma CloseOne_reads_funcs_unlocked (ctx : Ctx) (s : State Ctx World) :
  wf (cl s) -> i (cl s) < size (cl s) ->
  guarded false (events_of (CloseOne ctx) s) = false.
Proof.
  destruct s as [[m fs n k] w t]. unfold wf, inv. simpl.
  intros (Hm & (Hk & Hn) & Hmax) Hlt. subst m. unfold events_of.
  destruct (nth_error fs (Z.to_nat k)) as [f|] eqn:E.
  2:{ apply nth_error_None in E. exfalso. lia. }
  rewrite (CloseOne_next ctx fs n k w t f) by (assumption || lia).
  simpl. rewrite skipn_length_app. reflexivity.
Qed.

End Locking.

(** C10: [Size] reads the field [size] and does nothing else: no [Lock]
    comes before the read, so the read is not made under the mutex, whereas
    [Add] and [Close] touch the fields under the mutex only. *)
Theorem Size_reads_size_without_lock {Ctx World : Type} (s : State Ctx World) :
  events_of Size s = [EvRead Fsize] /\
  guarded false (events_of Size s) = false.
Proof.
  assert (E : events_of Size s = [EvRead Fsize]).
  { unfold events_of. rewrite Size_step. simpl. apply skipn_length_app. }
  rewrite E. split; reflexivity.
Qed.

(** The events of each method on the registry [three]. *)
Example events_of_methods :
  events_of Size three = [EvRead Fsize] /\
  events_of (Add ok) three =
    [EvLock; EvRead Ffuncs; EvWrite Ffuncs; EvRead Fsize; EvWrite Fsize;
     EvUnlock] /\
  events_of (CloseOne tt) three =
    [EvLock; EvRead Fi; EvRead Fi; EvRead Fsize; EvRead Fi; EvWrite Fi;
     EvUnlock; EvRead Ffuncs; EvCall 0 None] /\
  events_of Sub.reset three = [EvLock; EvWrite Fi; EvUnlock].
Proof. repeat split. Qed.

(** * Further properties *)

(** Decides a closed statement about a concrete registry by evaluation. *)
Ltac by_compute :=
  vm_compute; repeat split; try reflexivity; try discriminate.

(** ** [Close] of [src/closer/closer.go] *)

Lemma calls_of_run (t pre post : list event) (calls : list (nat * error)) :
  calls_of pre = [] -> calls_of post = [] ->
  calls_of (t ++ pre ++ map (fun r => EvCall (fst r) (snd r)) calls ++ post) =
  calls_of t ++ calls.
Proof.
  intros Hpre Hpost.
  rewrite !calls_of_app, Hpre, Hpost, app_nil_r. simpl. f_equal.
  unfold calls_of. induction calls as [|[slot res] calls IH]; simpl.
  - reflexivity.
  - f_equal. exact IH.
Qed.

(** X1: [Close] of [src/closer/closer.go] on a registry with unclosed
    callbacks never blocks on its channel; it invokes the unclosed
    callbacks one after the other by increasing slot, each in the world the
    one before left; it returns nil when none failed and otherwise
    "closer.Close: " and the failure texts joined by "; " in that order
    (given with [Join] and, without it, with [String.concat]; the text
    contains every failure text); it leaves the cursor at the size. *)
Theorem Sub_Close_runs_in_slot_order {Ctx World : Type} (ctx : Ctx)
    (s : State Ctx World) :
  wf (cl s) ->
  i (cl s) < size (cl s) ->
  let lo := Z.to_nat (i (cl s)) in
  let k := Z.to_nat (size (cl s) - i (cl s)) in
  let wr := run_order ctx (funcs (cl s)) (seq lo k) (world s) in
  exists e s',
    Sub.Close ctx s = Done e s' /\
    calls_of (trace s') = calls_of (trace s) ++ snd wr /\
    map fst (snd wr) = seq lo k /\
    world s' = fst wr /\
    (e = None <-> failures (snd wr) = O) /\
    ((0 < failures (snd wr))%nat ->
     e = Some ("closer.Close: " ++
               Join (flat_map (fun r => msg_of (snd r)) (snd wr)) "; ")%string) /\
    i (cl s') = size (cl s) /\
    size (cl s') = size (cl s) /\
    funcs (cl s') = funcs (cl s) /\
    mu (cl s') = false /\
    ((0 < failures (snd wr))%nat ->
     e = Some ("closer.Close: " ++
               String.concat "; "
                 (flat_map (fun r => msg_of (snd r)) (snd wr)))%string) /\
    (forall m, flat_map (fun r => msg_of (snd r)) (snd wr) = [m] ->
       e = Some ("closer.Close: " ++ m)%string) /\
    (forall slot m, In (slot, Some m) (snd wr) ->
       exists text, e = Some text /\ Contains text m = true).
Proof.
  destruct s as [[m fs n j] w t]. unfold wf, inv. simpl.
  intros (Hm & (Hj & Hn) & Hmax) Hlt. subst m.
  replace (Z.to_nat (n - j)) with (length fs - Z.to_nat j)%nat by lia.
  rewrite Sub_Close_run by lia.
  set (lo := Z.to_nat j). set (k := (length fs - lo)%nat).
  set (wr := run_order ctx fs (seq lo k) w).
  do 2 eexists. split; [reflexivity|]. cbn [cl world trace funcs size i mu].
  split.
  { unfold call_events. apply calls_of_run; reflexivity. }
  split.
  { apply map_fst_run_order. intros slot Hin. apply in_seq in Hin.
    unfold k, lo in Hin. lia. }
  split; [reflexivity|].
  assert (Hcontains : forall slot m0, In (slot, Some m0) (snd wr) ->
            exists text,
              report (flat_map (fun r => msg_of (snd r)) (snd wr)) = Some text /\
              Contains text m0 = true).
  { intros slot m0 Hin. apply report_contains. apply in_flat_map.
    exists (slot, Some m0). split; [exact Hin|]. left. reflexivity. }
  rewrite failures_length. rewrite <- Join_concat.
  destruct (flat_map (fun r => msg_of (snd r)) (snd wr)) as [|m ms] eqn:E.
  - simpl. repeat split; auto; try lia; try discriminate.
  - simpl. repeat split; auto; try discriminate; try lia.
    intros m0 Hone. inversion Hone. reflexivity.
Qed.

Lemma Sub_Close_runs_in_slot_order_witness :
  let lo := Z.to_nat (i (cl three)) in
  let k := Z.to_nat (size (cl three) - i (cl three)) in
  let wr := run_order tt (funcs (cl three)) (seq lo k) (world three) in
  exists e s',
    Sub.Close tt three = Done e s' /\
    calls_of (trace s') = calls_of (trace three) ++ snd wr /\
    map fst (snd wr) = seq lo k /\
    world s' = fst wr /\
    (e = None <-> failures (snd wr) = O) /\
    ((0 < failures (snd wr))%nat ->
     e = Some ("closer.Close: " ++
               Join (flat_map (fun r => msg_of (snd r)) (snd wr)) "; ")%string) /\
    i (cl s') = size (cl three) /\
    size (cl s') = size (cl three) /\
    funcs (cl s') = funcs (cl three) /\
    mu (cl s') = false /\
    ((0 < failures (snd wr))%nat ->
     e = Some ("closer.Close: " ++
               String.concat "; "
                 (flat_map (fun r => msg_of (snd r)) (snd wr)))%string) /\
    (forall m, flat_map (fun r => msg_of (snd r)) (snd wr) = [m] ->
       e = Some ("closer.Close: " ++ m)%string) /\
    (forall slot m, In (slot, Some m) (snd wr) ->
       exists text, e = Some text /\ Contains text m = true).
Proof.
  apply (Sub_Close_runs_in_slot_order tt three).
  - by_compute.
  - by_compute.
Defined.

(** With a [size] larger than the number of stored callbacks the slice is
    still in range, and with a smaller one the channel is too small: the
    third failure finds the buffer full and [Close] blocks, mutex held. *)
Example Sub_Close_blocks_without_invariant :
  exists s',
    Sub.Close tt (mkState (mkCloser false [ko "a"; ko "b"; ko "c"] 2 0) 0%nat [])
    = Blocked s' /\ mu (cl s') = true.
Proof. eexists. split; reflexivity. Qed.

(** ** The text of the error of [Close] *)

(** X2: the text of the error that [Close] returns contains, as a
    substring, the text of every failure of the callbacks it invoked; so a
    caller can test the error with [strings.Contains], as the tests do. *)
Theorem Close_error_contains_every_failure {Ctx World : Type}
    (oracle : list nat) (ctx : Ctx) (s s' : State Ctx World) (e : error)
    (calls : list (nat * error)) (slot : nat) (m : string) :
  wf (cl s) ->
  Root.Close oracle ctx s = Done e s' ->
  calls_of (trace s') = calls_of (trace s) ++ calls ->
  In (slot, Some m) calls ->
  exists text, e = Some text /\ Contains text m = true.
Proof.
  destruct s as [[mm fs n j] w t]. unfold wf, inv. simpl.
  intros (Hm & (Hj & Hn) & Hmax) Hrun Hcalls Hin. subst mm.
  destruct (Z.lt_ge_cases j n) as [Hlt|Hge].
  - rewrite Root_Close_run in Hrun by lia.
    set (lo := Z.to_nat j) in *. set (k := (length fs - lo)%nat) in *.
    set (order := order_of oracle lo k) in *.
    set (wr := run_order ctx fs order w) in *.
    inversion Hrun as [[He Hs]]. subst s'. clear Hrun.
    cbn [trace] in Hcalls. unfold call_events in Hcalls.
    assert (Hc := calls_of_run t
               [EvLock; EvRead Fi; EvRead Fsize; EvRead Fsize; EvRead Fsize;
                EvRead Ffuncs; EvRead Fi]
               [EvRead Fsize; EvWrite Fi; EvUnlock] (snd wr) eq_refl eq_refl).
    cbn [app] in Hc. rewrite Hc in Hcalls. clear Hc.
    apply app_inv_head in Hcalls. subst calls.
    assert (Hperm : Permutation order (seq lo k)) by apply order_of_perm.
    assert (Hkeys : map fst (snd wr) = order).
    { apply map_fst_run_order. intros sl Hsl.
      apply (Permutation_in _ Hperm) in Hsl. apply in_seq in Hsl.
      unfold k, lo in Hsl. lia. }
    assert (Hm_in : In m (in_slot_order (snd wr) lo k)).
    { unfold in_slot_order. apply in_flat_map. exists slot. split.
      - apply (Permutation_in _ Hperm). rewrite <- Hkeys.
        apply (in_map fst) in Hin. exact Hin.
      - unfold by_slot. apply in_flat_map. exists (slot, Some m).
        split; [exact Hin|]. simpl. rewrite Nat.eqb_refl. left. reflexivity. }
    destruct (in_slot_order (snd wr) lo k) as [|x l] eqn:E; [contradiction|].
    destruct (Join_contains "; " m (x :: l) Hm_in) as (a & b & EJ).
    eexists. split; [reflexivity|].
    apply Contains_spec. exists ("closer.Close: " ++ a)%string, b.
    rewrite EJ. rewrite sapp_assoc. reflexivity.
  - rewrite Root_Close_exhausted in Hrun by lia.
    inversion Hrun as [[He Hs]]. subst s'. cbn [trace] in Hcalls.
    rewrite calls_of_app in Hcalls. simpl in Hcalls.
    rewrite <- (app_nil_r (calls_of t)) in Hcalls at 1.
    rewrite app_nil_r in Hcalls.
    apply app_inv_head in Hcalls. subst calls. contradiction.
Qed.

Lemma Close_error_contains_every_failure_witness :
  exists text,
    Some "closer.Close: a; b"%string = Some text /\ Contains text "b" = true.
Proof.
  apply (Close_error_contains_every_failure [1%nat] tt two_failing
           (final (Root.Close [1%nat] tt two_failing))
           (Some "closer.Close: a; b"%string)
           [(1%nat, Some "b"%string); (0%nat, Some "a"%string)] 1%nat "b").
  - by_compute.
  - by_compute.
  - by_compute.
  - left. reflexivity.
Defined.

(** ** The callbacks invoked and the cursor *)

Section Accounting.

Context {Ctx World : Type}.

Implicit Types (s : State Ctx World) (o : op (Ctx:=Ctx) (World:=World)).

(** One operation invokes the slots that the cursor moves over, each
    once, and no other. *)
Lemma run_op_calls o s :
  wf (cl s) ->
  Z.of_nat (adds [o]) + size (cl s) <= int_max ->
  exists r s' calls,
    run_op o s = Done r s' /\
    wf (cl s') /\
    size (cl s') = size (cl s) + Z.of_nat (adds [o]) /\
    i (cl s) <= i (cl s') /\
    calls_of (trace s') = calls_of (trace s) ++ calls /\
    Permutation (map fst calls)
      (seq (Z.to_nat (i (cl s))) (Z.to_nat (i (cl s') - i (cl s)))).
Proof.
  destruct s as [[m fs n k] w t]. unfold wf, inv. simpl.
  intros (Hm & (Hk & Hn) & Hmax) Hadd. subst m.
  destruct o as [f|oracle ctx|ctx|ctx|]; cbn [adds] in *;
    change (Z.of_nat 1) with 1 in *; change (Z.of_nat 0) with 0 in *;
    unfold run_op, bind.
  - rewrite Add_step. unfold ret. exists RNone. eexists. exists [].
    split; [reflexivity|]. cbn [cl trace size i funcs mu].
    rewrite wrap_id by (unfold int_min; lia).
    rewrite length_app, calls_of_app, Z.sub_diag. simpl.
    repeat split; try lia; try reflexivity.
  - destruct (Z.lt_ge_cases k n) as [Hlt|Hge].
    + rewrite Root_Close_run by lia. unfold ret.
      set (lo := Z.to_nat k). set (rest := (length fs - lo)%nat).
      set (wr := run_order ctx fs (order_of oracle lo rest) w).
      eexists. eexists. exists (snd wr).
      split; [reflexivity|]. cbn [cl trace size i funcs mu].
      replace (Z.to_nat (n - k)) with rest by (unfold rest, lo; lia).
      repeat split; try lia.
      * unfold call_events. apply calls_of_run; reflexivity.
      * unfold wr. rewrite map_fst_run_order.
        -- apply order_of_perm.
        -- intros slot Hin.
           apply (Permutation_in _ (order_of_perm oracle lo rest)) in Hin.
           apply in_seq in Hin. unfold rest, lo in Hin. lia.
    + rewrite Root_Close_exhausted by lia. unfold ret.
      eexists. eexists. exists [].
      split; [reflexivity|]. cbn [cl trace size i funcs mu].
      rewrite calls_of_app, Z.sub_diag. simpl.
      repeat split; try lia; try reflexivity.
  - destruct (Z.lt_ge_cases k n) as [Hlt|Hge].
    + rewrite Sub_Close_run by lia. unfold ret.
      set (lo := Z.to_nat k). set (rest := (length fs - lo)%nat).
      set (wr := run_order ctx fs (seq lo rest) w).
      eexists. eexists. exists (snd wr).
      split; [reflexivity|]. cbn [cl trace size i funcs mu].
      replace (Z.to_nat (n - k)) with rest by (unfold rest, lo; lia).
      repeat split; try lia.
      * unfold call_events. apply calls_of_run; reflexivity.
      * unfold wr. rewrite map_fst_run_order.
        -- apply Permutation_refl.
        -- intros slot Hin. apply in_seq in Hin. unfold rest, lo in Hin. lia.
    + rewrite Sub_Close_exhausted by lia. unfold ret.
      eexists. eexists. exists [].
      split; [reflexivity|]. cbn [cl trace size i funcs mu].
      rewrite calls_of_app, Z.sub_diag. simpl.
      repeat split; try lia; try reflexivity.
  - destruct (Z.lt_ge_cases k n) as [Hlt|Hge].
    + destruct (nth_error fs (Z.to_nat k)) as [f|] eqn:E.
      2:{ apply nth_error_None in E. exfalso. lia. }
      rewrite (CloseOne_next ctx fs n k w t f) by (assumption || lia).
      unfold ret. eexists. eexists.
      exists [(Z.to_nat k, snd (f ctx w))].
      split; [reflexivity|]. cbn [cl trace size i funcs mu].
      rewrite wrap_id by (unfold int_min; lia).
      replace (k + 1 - k) with 1 by lia.
      rewrite calls_of_app. simpl.
      repeat split; try lia; try reflexivity.
    + rewrite CloseOne_exhausted by lia. unfold ret.
      eexists. eexists. exists [].
      split; [reflexivity|]. cbn [cl trace size i funcs mu].
      rewrite calls_of_app, Z.sub_diag. simpl.
      repeat split; try lia; try reflexivity.
  - unfold Size, get_size, ret, emit. eexists. eexists. exists [].
    split; [reflexivity|]. cbn [cl trace size i funcs mu].
    rewrite calls_of_app, Z.sub_diag. simpl.
    repeat split; try lia; try reflexivity.
Qed.

Lemma seq_split_perm (a b c : nat) (l1 l2 : list nat) :
  Permutation l1 (seq a b) -> Permutation l2 (seq (a + b) c) ->
  Permutation (l1 ++ l2) (seq a (b + c)).
Proof.
  intros H1 H2. rewrite seq_app. apply Permutation_app; assumption.
Qed.

End Accounting.

(** X3: in every sequence of [Add], [Close], [CloseOne] and [Size] calls,
    the callbacks invoked are those of the slots between the cursor before
    and the cursor after, each of them once: no callback is invoked twice,
    none that the cursor passed is skipped, none beyond the cursor is
    invoked. *)
Theorem invoked_slots_are_those_passed {Ctx World : Type}
    (ops : list (op (Ctx:=Ctx) (World:=World))) (s : State Ctx World) :
  wf (cl s) ->
  Z.of_nat (adds ops) + size (cl s) <= int_max ->
  exists rs s' calls,
    run_ops ops s = Done rs s' /\
    calls_of (trace s') = calls_of (trace s) ++ calls /\
    i (cl s) <= i (cl s') /\
    Permutation (map fst calls)
      (seq (Z.to_nat (i (cl s))) (Z.to_nat (i (cl s') - i (cl s)))) /\
    NoDup (map fst calls).
Proof.
  revert s. induction ops as [|o ops IH]; intros s Hwf Hadd.
  - exists [], s, []. cbn [run_ops]. unfold ret.
    rewrite app_nil_r, Z.sub_diag. simpl.
    repeat split; try lia; try apply perm_nil. apply NoDup_nil.
  - rewrite adds_cons in Hadd.
    destruct (run_op_calls o s Hwf) as (r & s1 & c1 & E1 & Hwf1 & Hs1 & Hi1 & Hc1 & Hp1);
      [lia|].
    destruct (IH s1 Hwf1) as (rs & s2 & c2 & E2 & Hc2 & Hi2 & Hp2 & _); [lia|].
    exists (r :: rs), s2, (c1 ++ c2). cbn [run_ops].
    unfold bind at 1. rewrite E1. unfold bind at 1. rewrite E2. unfold ret.
    assert (Hi0 : 0 <= i (cl s)) by (destruct Hwf as (_ & (H0 & _) & _); lia).
    assert (Hp : Permutation (map fst (c1 ++ c2))
                   (seq (Z.to_nat (i (cl s))) (Z.to_nat (i (cl s2) - i (cl s))))).
    { rewrite map_app.
      replace (Z.to_nat (i (cl s2) - i (cl s)))
        with (Z.to_nat (i (cl s1) - i (cl s)) + Z.to_nat (i (cl s2) - i (cl s1)))%nat
        by lia.
      apply seq_split_perm; [exact Hp1|].
      replace (Z.to_nat (i (cl s)) + Z.to_nat (i (cl s1) - i (cl s)))%nat
        with (Z.to_nat (i (cl s1))) by lia.
      exact Hp2. }
    split; [reflexivity|]. split.
    { rewrite Hc2, Hc1, app_assoc. reflexivity. }
    split; [lia|]. split; [exact Hp|].
    apply (Permutation_NoDup (Permutation_sym Hp)). apply seq_NoDup.
Qed.

Lemma invoked_slots_are_those_passed_witness :
  exists rs s' calls,
    run_ops [OpCloseOne tt; OpAdd (ko "late"); OpClose [2%nat] tt; OpCloseOne tt;
             OpAdd ok; OpCloseSync tt] three = Done rs s' /\
    calls_of (trace s') = calls_of (trace three) ++ calls /\
    i (cl three) <= i (cl s') /\
    Permutation (map fst calls)
      (seq (Z.to_nat (i (cl three))) (Z.to_nat (i (cl s') - i (cl three)))) /\
    NoDup (map fst calls).
Proof.
  apply (invoked_slots_are_those_passed
           [OpCloseOne tt; OpAdd (ko "late"); OpClose [2%nat] tt; OpCloseOne tt;
            OpAdd ok; OpCloseSync tt] three).
  - by_compute.
  - by_compute.
Defined.

(** ** Callers of [CloseOne] in flight *)

Section InFlight.

Context {Ctx World : Type}.

Implicit Types (fs : list (Func Ctx World)) (w : World) (t : list event).

(** [CloseOne] is its two halves, one after the other. *)
Lemma CloseOne_two_halves (ctx : Ctx) (s : State Ctx World) :
  CloseOne ctx s = bind reserve (invoke ctx) s.
Proof.
  destruct s as [[m fs n k] w t].
  unfold CloseOne, reserve, invoke, bind, with_defer, Lock, Unlock, get_i,
    get_size, set_i, emit, with_cl, ret. simpl.
  destruct m; [reflexivity|]. simpl.
  destruct (k >=? n); reflexivity.
Qed.

Lemma reserve_exhausted fs n k w t :
  n <= k ->
  reserve (mkState (mkCloser false fs n k) w t) =
  Done (k, Errorf "closer.CloseOne" ErrAllServicesClosed)
       (mkState (mkCloser false fs n k) w
          (t ++ [EvLock; EvRead Fi; EvRead Fi; EvRead Fsize; EvUnlock])).
Proof.
  intros H.
  unfold reserve, bind, with_defer, Lock, Unlock, get_i, get_size,
    emit, with_cl, ret. simpl.
  rewrite Z.geb_leb. destruct (Z.leb_spec n k); [|lia]. simpl.
  rewrite <- !app_assoc. reflexivity.
Qed.

Lemma reserve_next fs n k w t :
  k < n ->
  reserve (mkState (mkCloser false fs n k) w t) =
  Done (k, None)
       (mkState (mkCloser false fs n (wrap (k + 1))) w
          (t ++ [EvLock; EvRead Fi; EvRead Fi; EvRead Fsize; EvRead Fi;
                 EvWrite Fi; EvUnlock])).
Proof.
  intros H.
  unfold reserve, bind, with_defer, Lock, Unlock, get_i, get_size, set_i,
    emit, with_cl, ret. simpl.
  rewrite Z.geb_leb. destruct (Z.leb_spec n k); [lia|]. simpl.
  rewrite <- !app_assoc. reflexivity.
Qed.

Lemma invoke_slot ctx (c : Closer Ctx World) w t prev f :
  0 <= prev -> nth_error (funcs c) (Z.to_nat prev) = Some f ->
  invoke ctx (prev, None) (mkState c w t) =
  Done (snd (f ctx w))
       (mkState c (fst (f ctx w))
          (t ++ [EvRead Ffuncs; EvCall (Z.to_nat prev) (snd (f ctx w))])).
Proof.
  intros H0 Hf.
  assert (Hlen : (Z.to_nat prev < length (funcs c))%nat)
    by (apply nth_error_Some; congruence).
  unfold invoke, bind, get_funcs, index, call, emit. simpl.
  destruct (Z.leb_spec 0 prev); [|lia].
  destruct (Z.ltb_spec prev (Z.of_nat (length (funcs c)))); [|lia]. simpl.
  rewrite Hf. unfold ret. simpl. rewrite <- !app_assoc. reflexivity.
Qed.

Lemma held_slots_app (a b : list (caller (Ctx:=Ctx))) :
  held_slots (a ++ b) = held_slots a ++ held_slots b.
Proof. unfold held_slots. apply flat_map_app. Qed.

Lemma held_slots_pick (inside : list (caller (Ctx:=Ctx))) (c0 : caller) (p : nat) :
  (p < length inside)%nat ->
  Permutation (held_slots [nth p inside c0] ++ held_slots (remove_nth p inside))
              (held_slots inside).
Proof.
  intros Hp. rewrite <- held_slots_app. unfold held_slots.
  apply Permutation_flat_map. apply (nth_remove_nth_perm c0 inside p Hp).
Qed.

Lemma in_remove_nth {A : Type} (l : list A) (p : nat) (x : A) :
  In x (remove_nth p l) -> In x l.
Proof.
  revert p. induction l as [|y l IH]; intros [|p] Hin; simpl in *; auto.
  destruct Hin as [E|Hin]; [left; exact E|right; eapply IH; exact Hin].
Qed.

Lemma ticket_ok_grows (c c' : Closer Ctx World) (inside : list caller) :
  size c <= size c' ->
  Forall (ticket_ok c) inside -> Forall (ticket_ok c') inside.
Proof.
  intros Hle H. eapply Forall_impl; [|exact H].
  intros cr Hok Hlive. specialize (Hok Hlive). lia.
Qed.

End InFlight.

Section InFlightRuns.

Context {Ctx World : Type}.

Implicit Types (s : State Ctx World) (inside : list (caller (Ctx:=Ctx))).

(** Any run of callers and whole operations: it ends normally (no index
    out of range, no caller blocked for ever), and the slots invoked during
    the run, with those still held at its end, are the slots held at its
    start with those the cursor moved over. *)
Lemma run_steps_inv (steps : list (step (Ctx:=Ctx) (World:=World))) :
  forall inside s,
    wf (cl s) ->
    Z.of_nat (adds (wholes steps)) + size (cl s) <= int_max ->
    Forall (ticket_ok (cl s)) inside ->
    exists inside' rs s' new,
      run_steps steps inside s = Done (inside', rs) s' /\
      wf (cl s') /\
      i (cl s) <= i (cl s') /\
      calls_of (trace s') = calls_of (trace s) ++ new /\
      Permutation (map fst new ++ held_slots inside')
        (held_slots inside ++
         seq (Z.to_nat (i (cl s))) (Z.to_nat (i (cl s') - i (cl s)))) /\
      (wholes steps = [] ->
       size (cl s') = size (cl s) /\
       funcs (cl s') = funcs (cl s) /\
       i (cl s') = Z.min (size (cl s)) (i (cl s) + Z.of_nat (enters steps))).
Proof.
  induction steps as [|st steps IH]; intros inside s Hwf Hadd Hok.
  - exists inside, [], s, []. cbn [run_steps]. unfold ret.
    rewrite !app_nil_r, Z.sub_diag. simpl. rewrite app_nil_r.
    destruct Hwf as (Hm & (Hi & Hn) & Hmax).
    repeat split; try lia; auto.
  - destruct st as [ctx|pick|o].
    + (* a caller takes its slot *)
      cbn [run_steps wholes enters] in *.
      destruct s as [[m fs n k] w t]. unfold wf, inv in Hwf.
      cbn [cl mu funcs size i trace] in *.
      destruct Hwf as (Hm & (Hk & Hn) & Hmax). subst m.
      unfold bind at 1.
      destruct (Z.lt_ge_cases k n) as [Hlt|Hge].
      * rewrite reserve_next by lia.
        rewrite wrap_id by (unfold int_min; lia).
        match goal with |- context [run_steps steps ?l ?st] =>
          destruct (IH l st) as (inside' & rs & s' & new & E & Hwf' & Hi' & Hc & Hp & Hw)
        end.
        { unfold wf, inv. simpl. lia. }
        { simpl. lia. }
        { apply Forall_app. split; [exact Hok|].
          constructor; [|constructor]. intros _. simpl. lia. }
        cbn [cl mu funcs size i trace] in *.
        exists inside', rs, s', new. split; [exact E|]. split; [exact Hwf'|].
        split; [lia|]. split.
        { rewrite Hc, calls_of_app. simpl. rewrite app_nil_r. reflexivity. }
        split.
        { eapply perm_trans; [exact Hp|].
          rewrite held_slots_app. simpl. rewrite <- app_assoc. simpl.
          replace (Z.to_nat (i (cl s') - k))
            with (S (Z.to_nat (i (cl s') - (k + 1)))) by lia.
          replace (Z.to_nat (k + 1)) with (S (Z.to_nat k)) by lia.
          apply Permutation_refl. }
        intros Hnil. destruct (Hw Hnil) as (Hs & Hf & Hi2).
        repeat split; try assumption. lia.
      * rewrite reserve_exhausted by lia.
        match goal with |- context [run_steps steps ?l ?st] =>
          destruct (IH l st) as (inside' & rs & s' & new & E & Hwf' & Hi' & Hc & Hp & Hw)
        end.
        { unfold wf, inv. simpl. lia. }
        { simpl. lia. }
        { apply Forall_app. split; [exact Hok|].
          constructor; [|constructor]. intros Hlive. discriminate Hlive. }
        cbn [cl mu funcs size i trace] in *.
        exists inside', rs, s', new. split; [exact E|]. split; [exact Hwf'|].
        split; [lia|]. split.
        { rewrite Hc, calls_of_app. simpl. rewrite app_nil_r. reflexivity. }
        split.
        { eapply perm_trans; [exact Hp|].
          rewrite held_slots_app. simpl. rewrite app_nil_r.
          apply Permutation_refl. }
        intros Hnil. destruct (Hw Hnil) as (Hs & Hf & Hi2).
        repeat split; try assumption. lia.
    + (* a caller in flight invokes its callback and returns *)
      cbn [run_steps wholes enters] in *.
      destruct inside as [|c0 inside0].
      { destruct (IH [] s Hwf Hadd Hok)
          as (inside' & rs & s' & new & E & Hwf' & Hi' & Hc & Hp & Hw).
        exists inside', rs, s', new.
        split; [exact E|]. split; [exact Hwf'|]. split; [exact Hi'|].
        split; [exact Hc|]. split; [exact Hp|exact Hw]. }
      cbv beta iota zeta.
      set (inside := c0 :: inside0) in *.
      set (p := Nat.modulo pick (length inside)).
      assert (Hp_lt : (p < length inside)%nat)
        by (apply Nat.mod_upper_bound; unfold inside; simpl; lia).
      set (c := nth p inside c0).
      assert (Hc_in : In c inside) by (apply nth_In; exact Hp_lt).
      assert (Hc_ok : ticket_ok (cl s) c)
        by (rewrite Forall_forall in Hok; apply Hok; exact Hc_in).
      assert (Hok' : Forall (ticket_ok (cl s)) (remove_nth p inside)).
      { rewrite Forall_forall in *. intros x Hx. apply Hok.
        eapply in_remove_nth. exact Hx. }
      assert (Hheld := held_slots_pick inside c0 p Hp_lt). fold c in Hheld.
      destruct c as [ctx [prev [e|]]] eqn:Ec.
      * (* it found the registry exhausted *)
        unfold bind at 1. unfold invoke. simpl. unfold ret.
        destruct (IH (remove_nth p inside) s Hwf Hadd Hok')
          as (inside' & rs & s' & new & E & Hwf' & Hi' & Hc & Hp & Hw).
        exists inside', (RErr (Some e) :: rs), s', new.
        unfold bind at 1. rewrite E.
        split; [reflexivity|]. split; [exact Hwf'|]. split; [exact Hi'|].
        split; [exact Hc|]. split; [|exact Hw].
        eapply perm_trans; [exact Hp|].
        apply Permutation_app_tail. exact Hheld.
      * (* it holds the slot [prev] *)
        destruct s as [[m fs n k] w t].
        assert (Hwf0 := Hwf). unfold wf, inv in Hwf0.
        cbn [cl mu funcs size i trace] in *.
        destruct Hwf0 as (Hm & (Hk & Hn) & Hmax). subst m.
        assert (Hprev : 0 <= prev < n) by (apply Hc_ok; reflexivity).
        destruct (nth_error fs (Z.to_nat prev)) as [f|] eqn:Ef.
        2:{ apply nth_error_None in Ef. exfalso. lia. }
        unfold bind at 1. cbn [fst snd].
        assert (Hinv := invoke_slot ctx (mkCloser false fs n k) w t prev f
                          (proj1 Hprev) Ef).
        match goal with
        | |- context [invoke ?a ?b ?st] =>
            change (invoke a b st)
              with (invoke ctx (prev, None)
                      (mkState (mkCloser false fs n k) w t))
        end.
        rewrite Hinv. clear Hinv. cbv beta iota.
        destruct (IH (remove_nth p inside)
                    (mkState (mkCloser false fs n k) (fst (f ctx w))
                       (t ++ [EvRead Ffuncs;
                              EvCall (Z.to_nat prev) (snd (f ctx w))])))
          as (inside' & rs & s' & new & E & Hwf' & Hi' & Hc & Hp & Hw).
        { exact Hwf. } { exact Hadd. } { exact Hok'. }
        cbn [cl mu funcs size i trace] in *.
        exists inside', (RErr (snd (f ctx w)) :: rs), s',
               ((Z.to_nat prev, snd (f ctx w)) :: new).
        unfold bind at 1. rewrite E.
        split; [reflexivity|]. split; [exact Hwf'|]. split; [exact Hi'|].
        split.
        { rewrite Hc, calls_of_app. simpl. rewrite <- app_assoc.
          reflexivity. }
        split; [|exact Hw].
        cbn [map fst app].
        eapply perm_trans; [apply perm_skip; exact Hp|].
        change (Z.to_nat prev :: held_slots (remove_nth p inside) ++ ?r)
          with ((Z.to_nat prev :: held_slots (remove_nth p inside)) ++ r).
        apply Permutation_app_tail. exact Hheld.
    + (* a whole operation *)
      cbn [run_steps wholes enters] in *.
      rewrite adds_cons in Hadd.
      destruct (run_op_calls o s Hwf)
        as (r & s1 & c1 & E1 & Hwf1 & Hs1 & Hi1 & Hc1 & Hp1); [lia|].
      destruct (IH inside s1 Hwf1)
        as (inside' & rs & s' & new & E & Hwf' & Hi' & Hc & Hp & _).
      { lia. }
      { eapply ticket_ok_grows; [|exact Hok]. lia. }
      exists inside', (r :: rs), s', (c1 ++ new).
      unfold bind at 1. rewrite E1. unfold bind at 1. rewrite E.
      split; [reflexivity|]. split; [exact Hwf'|]. split; [lia|].
      split.
      { rewrite Hc, Hc1, app_assoc. reflexivity. }
      split; [|discriminate].
      assert (Hi0 : 0 <= i (cl s)) by (destruct Hwf as (_ & (H0 & _) & _); lia).
      rewrite map_app, <- app_assoc.
      eapply perm_trans; [apply Permutation_app; [exact Hp1|exact Hp]|].
      rewrite app_assoc.
      eapply perm_trans;
        [apply Permutation_app_tail; apply Permutation_app_comm|].
      rewrite <- app_assoc. apply Permutation_app_head.
      replace (Z.to_nat (i (cl s') - i (cl s)))
        with (Z.to_nat (i (cl s1) - i (cl s)) + Z.to_nat (i (cl s') - i (cl s1)))%nat
        by lia.
      rewrite seq_app.
      replace (Z.to_nat (i (cl s)) + Z.to_nat (i (cl s1) - i (cl s)))%nat
        with (Z.to_nat (i (cl s1))) by lia.
      apply Permutation_refl.
Qed.

End InFlightRuns.

(** X4: goroutines inside [CloseOne], between its [Unlock] and its
    callback, interleaved in any way with each other and with whole [Add],
    [Close], [CloseOne] and [Size] calls: the run never panics on
    [c.funcs[prev]], and the slots invoked during the run, with the slots
    held by the callers still in flight, are the slots the cursor moved
    over, each once.  So no callback is invoked twice, and no caller holds a
    slot that another one holds or that [Close] has invoked. *)
Theorem callers_in_flight_never_share_a_slot {Ctx World : Type}
    (steps : list (step (Ctx:=Ctx) (World:=World))) (s : State Ctx World) :
  wf (cl s) ->
  Z.of_nat (adds (wholes steps)) + size (cl s) <= int_max ->
  exists inside rs s' new,
    run_steps steps [] s = Done (inside, rs) s' /\
    calls_of (trace s') = calls_of (trace s) ++ new /\
    Permutation (map fst new ++ held_slots inside)
      (seq (Z.to_nat (i (cl s))) (Z.to_nat (i (cl s') - i (cl s)))) /\
    NoDup (map fst new ++ held_slots inside) /\
    inv (cl s').
Proof.
  intros Hwf Hadd.
  destruct (run_steps_inv steps [] s Hwf Hadd (Forall_nil _))
    as (inside & rs & s' & new & E & Hwf' & _ & Hc & Hp & _).
  simpl in Hp.
  exists inside, rs, s', new. split; [exact E|]. split; [exact Hc|].
  split; [exact Hp|]. split.
  - apply (Permutation_NoDup (Permutation_sym Hp)). apply seq_NoDup.
  - apply Hwf'.
Qed.

Lemma callers_in_flight_never_share_a_slot_witness :
  exists inside rs s' new,
    run_steps [Enter tt; Whole (OpAdd (ko "late")); Enter tt; Leave 1;
               Whole (OpClose [1%nat] tt); Leave 0; Enter tt] [] three =
      Done (inside, rs) s' /\
    calls_of (trace s') = calls_of (trace three) ++ new /\
    Permutation (map fst new ++ held_slots inside)
      (seq (Z.to_nat (i (cl three))) (Z.to_nat (i (cl s') - i (cl three)))) /\
    NoDup (map fst new ++ held_slots inside) /\
    inv (cl s').
Proof.
  apply (callers_in_flight_never_share_a_slot
           [Enter tt; Whole (OpAdd (ko "late")); Enter tt; Leave 1;
            Whole (OpClose [1%nat] tt); Leave 0; Enter tt] three).
  - by_compute.
  - by_compute.
Defined.

(** The run of the witness: the callers took the slots 0 and 1, the second
    one ran first, [Close] invoked the slots 2 and 3 only, and the third
    caller found the registry exhausted. *)
Example callers_in_flight_run :
  calls_of (trace (final (run_steps
     [Enter tt; Whole (OpAdd (ko "late")); Enter tt; Leave 1;
      Whole (OpClose [1%nat] tt); Leave 0; Enter tt] [] three))) =
  [(1%nat, Some "second"%string); (3%nat, Some "late"%string); (2%nat, None);
   (0%nat, None)] /\
  returned (run_steps
     [Enter tt; Whole (OpAdd (ko "late")); Enter tt; Leave 1;
      Whole (OpClose [1%nat] tt); Leave 0; Enter tt] [] three) =
  Some ([(tt, (4, Some "closer.CloseOne: all services closed"%string))],
        [RNone; RErr (Some "second"%string);
         RErr (Some "closer.Close: late"%string); RErr None]).
Proof. split; vm_compute; reflexivity. Qed.

(** X5: [M] goroutines that call [CloseOne] at the same time, and nothing
    else: whatever the interleaving, the callbacks invoked and the slots
    still held are the first [min(M, size - i)] unclosed slots, each once;
    when every caller has returned, exactly these callbacks have run, each
    once.  The registry itself is not changed but for the cursor. *)
Theorem concurrent_CloseOne_takes_distinct_slots {Ctx World : Type}
    (steps : list (step (Ctx:=Ctx) (World:=World))) (s : State Ctx World) :
  wf (cl s) ->
  wholes steps = [] ->
  let taken := Z.to_nat (Z.min (size (cl s) - i (cl s)) (Z.of_nat (enters steps))) in
  exists inside rs s' new,
    run_steps steps [] s = Done (inside, rs) s' /\
    calls_of (trace s') = calls_of (trace s) ++ new /\
    Permutation (map fst new ++ held_slots inside)
      (seq (Z.to_nat (i (cl s))) taken) /\
    (inside = [] -> Permutation (map fst new) (seq (Z.to_nat (i (cl s))) taken)) /\
    i (cl s') = i (cl s) + Z.of_nat taken /\
    size (cl s') = size (cl s) /\
    funcs (cl s') = funcs (cl s).
Proof.
  intros Hwf Hnil taken.
  destruct (run_steps_inv steps [] s Hwf)
    as (inside & rs & s' & new & E & Hwf' & Hi & Hc & Hp & Hw).
  { rewrite Hnil. simpl. destruct Hwf as (_ & _ & Hmax). lia. }
  { constructor. }
  destruct (Hw Hnil) as (Hs & Hf & Hi').
  assert (Hi0 : 0 <= i (cl s) <= size (cl s))
    by (destruct Hwf as (_ & (H0 & _) & _); exact H0).
  assert (Htaken : Z.to_nat (i (cl s') - i (cl s)) = taken)
    by (unfold taken; lia).
  simpl in Hp. rewrite Htaken in Hp.
  exists inside, rs, s', new. split; [exact E|]. split; [exact Hc|].
  split; [exact Hp|]. split.
  { intros Hin. subst inside. simpl in Hp. rewrite app_nil_r in Hp. exact Hp. }
  split; [unfold taken; lia|]. split; assumption.
Qed.

Lemma concurrent_CloseOne_takes_distinct_slots_witness :
  let taken :=
    Z.to_nat (Z.min (size (cl three) - i (cl three))
                    (Z.of_nat (enters [Enter tt; Enter tt; Leave 1; Enter tt;
                                       Leave 0; Enter tt; Leave 1; Leave 0
                                       : step (Ctx:=unit) (World:=nat)]))) in
  exists inside rs s' new,
    run_steps [Enter tt; Enter tt; Leave 1; Enter tt; Leave 0; Enter tt;
               Leave 1; Leave 0] [] three = Done (inside, rs) s' /\
    calls_of (trace s') = calls_of (trace three) ++ new /\
    Permutation (map fst new ++ held_slots inside)
      (seq (Z.to_nat (i (cl three))) taken) /\
    (inside = [] ->
     Permutation (map fst new) (seq (Z.to_nat (i (cl three))) taken)) /\
    i (cl s') = i (cl three) + Z.of_nat taken /\
    size (cl s') = size (cl three) /\
    funcs (cl s') = funcs (cl three).
Proof.
  apply (concurrent_CloseOne_takes_distinct_slots
           [Enter tt; Enter tt; Leave 1; Enter tt; Leave 0; Enter tt;
            Leave 1; Leave 0] three).
  - by_compute.
  - reflexivity.
Defined.

(** ** [reset] and the benchmarks *)

Section Reset.

Context {Ctx World : Type}.

Implicit Types (fs : list (Func Ctx World)) (w : World) (t : list event).

Lemma reset_step fs n k w t :
  Sub.reset (mkState (mkCloser false fs n k) w t) =
  Done tt (mkState (mkCloser false fs n 0) w
             (t ++ [EvLock; EvWrite Fi; EvUnlock])).
Proof.
  unfold Sub.reset, bind, Lock, Unlock, set_i, emit, with_cl. simpl.
  rewrite <- !app_assoc. reflexivity.
Qed.

Lemma always_succeed_no_failure ctx fs (order : list nat) :
  always_succeed ctx fs ->
  forall w, flat_map (fun r => msg_of (snd r)) (snd (run_order ctx fs order w)) = [].
Proof.
  intros Hok. induction order as [|slot order IH]; intros w.
  - reflexivity.
  - cbn [run_order]. destruct (nth_error fs slot) as [f|] eqn:E.
    + cbn [snd flat_map]. rewrite IH.
      rewrite (Hok f w) by (eapply nth_error_In; exact E). reflexivity.
    + apply IH.
Qed.

End Reset.

(** X6: [reset] moves the cursor back to 0 and changes nothing else, so
    the next [Close] invokes every stored callback, the closed ones
    included, by increasing slot. *)
Theorem reset_rearms_the_registry {Ctx World : Type} (ctx : Ctx)
    (s : State Ctx World) :
  wf (cl s) ->
  0 < size (cl s) ->
  let n := length (funcs (cl s)) in
  let wr := run_order ctx (funcs (cl s)) (seq 0 n) (world s) in
  exists s1 e s2,
    Sub.reset s = Done tt s1 /\
    i (cl s1) = 0 /\
    size (cl s1) = size (cl s) /\
    funcs (cl s1) = funcs (cl s) /\
    mu (cl s1) = false /\
    world s1 = world s /\
    calls_of (trace s1) = calls_of (trace s) /\
    Sub.Close ctx s1 = Done e s2 /\
    calls_of (trace s2) = calls_of (trace s) ++ snd wr /\
    map fst (snd wr) = seq 0 n.
Proof.
  destruct s as [[m fs n j] w t]. unfold wf, inv. simpl.
  intros (Hm & (Hj & Hn) & Hmax) Hpos. subst m.
  rewrite reset_step.
  do 3 eexists. split; [reflexivity|]. cbn [cl world trace funcs size i mu].
  repeat (split; [reflexivity|]).
  split; [rewrite calls_of_app, app_nil_r; reflexivity|].
  rewrite Sub_Close_run by lia. simpl Z.to_nat. rewrite Nat.sub_0_r.
  split; [reflexivity|]. cbn [trace]. split.
  - unfold call_events. rewrite calls_of_run by reflexivity.
    rewrite calls_of_app, app_nil_r. reflexivity.
  - apply map_fst_run_order. intros slot Hin. apply in_seq in Hin. lia.
Qed.

Lemma reset_rearms_the_registry_witness :
  let n := length (funcs (cl three_closed)) in
  let wr := run_order tt (funcs (cl three_closed)) (seq 0 n) (world three_closed) in
  exists s1 e s2,
    Sub.reset three_closed = Done tt s1 /\
    i (cl s1) = 0 /\
    size (cl s1) = size (cl three_closed) /\
    funcs (cl s1) = funcs (cl three_closed) /\
    mu (cl s1) = false /\
    world s1 = world three_closed /\
    calls_of (trace s1) = calls_of (trace three_closed) /\
    Sub.Close tt s1 = Done e s2 /\
    calls_of (trace s2) = calls_of (trace three_closed) ++ snd wr /\
    map fst (snd wr) = seq 0 n.
Proof.
  apply (reset_rearms_the_registry tt three_closed).
  - by_compute.
  - by_compute.
Defined.

(** X7: the loop of [BenchmarkCloser_Close], on a registry of at least one
    callback, cursor 0, whose callbacks all succeed: none of its rounds
    meets an error (no [Fatalf]), every round invokes every callback once,
    by increasing slot, and the registry is at the end as it was at the
    start. *)
Theorem Benchmark_Close_runs_every_callback_each_round {Ctx World : Type}
    (ctx : Ctx) (rounds : nat) (s : State Ctx World) :
  wf (cl s) ->
  i (cl s) = 0 ->
  0 < size (cl s) ->
  always_succeed ctx (funcs (cl s)) ->
  exists s' new,
    bench_loop (Sub.Close ctx) rounds s = Done None s' /\
    calls_of (trace s') = calls_of (trace s) ++ new /\
    map fst new = concat (repeat (seq 0 (length (funcs (cl s)))) rounds) /\
    cl s' = cl s.
Proof.
  destruct s as [[m fs n j] w t]. unfold wf, inv. simpl.
  intros (Hm & (Hj & Hn) & Hmax) Hi Hpos Hok. subst m j.
  revert w t. induction rounds as [|rounds IH]; intros w t.
  - exists (mkState (mkCloser false fs n 0) w t), []. simpl.
    rewrite app_nil_r. repeat split; reflexivity.
  - cbn [bench_loop]. unfold bind at 1.
    rewrite Sub_Close_run by lia. simpl Z.to_nat. rewrite Nat.sub_0_r.
    set (wr := run_order ctx fs (seq 0 (length fs)) w).
    assert (Hnone : flat_map (fun r => msg_of (snd r)) (snd wr) = [])
      by (apply always_succeed_no_failure; exact Hok).
    rewrite Hnone. cbn [report]. unfold bind at 1. rewrite reset_step.
    match goal with |- context [bench_loop _ rounds (mkState _ ?w1 ?t1)] =>
      destruct (IH w1 t1) as (s' & new & E & Hc & Hslots & Hcl)
    end.
    exists s', (snd wr ++ new). split; [exact E|]. split.
    { rewrite Hc. cbn [trace]. rewrite calls_of_app. unfold call_events.
      rewrite (calls_of_run t) by reflexivity. simpl.
      rewrite app_nil_r, app_assoc. reflexivity. }
    split; [|exact Hcl].
    rewrite map_app, Hslots. cbn [repeat concat]. f_equal.
    apply map_fst_run_order. intros slot Hin. apply in_seq in Hin. lia.
Qed.

Lemma Benchmark_Close_runs_every_callback_each_round_witness :
  exists s' new,
    bench_loop (Sub.Close tt) 3 two_ok = Done None s' /\
    calls_of (trace s') = calls_of (trace two_ok) ++ new /\
    map fst new =
      concat (repeat (seq 0 (length (funcs (cl two_ok)))) 3) /\
    cl s' = cl two_ok.
Proof.
  apply (Benchmark_Close_runs_every_callback_each_round tt 3
           two_ok).
  - by_compute.
  - reflexivity.
  - by_compute.
  - intros f w Hin. vm_compute in Hin.
    destruct Hin as [E|[E|[]]]; subst f; reflexivity.
Defined.

(** X8: the loop of [BenchmarkCloser_CloseOne], on the same registries:
    every round invokes the callback of slot 0 and no other callback is
    ever invoked, because [reset] moves the cursor back after each
    [CloseOne]. *)
Theorem Benchmark_CloseOne_runs_the_first_callback_only {Ctx World : Type}
    (ctx : Ctx) (rounds : nat) (s : State Ctx World) :
  wf (cl s) ->
  i (cl s) = 0 ->
  0 < size (cl s) ->
  always_succeed ctx (funcs (cl s)) ->
  exists s' new,
    bench_loop (CloseOne ctx) rounds s = Done None s' /\
    calls_of (trace s') = calls_of (trace s) ++ new /\
    map fst new = repeat O rounds /\
    cl s' = cl s.
Proof.
  destruct s as [[m fs n j] w t]. unfold wf, inv. simpl.
  intros (Hm & (Hj & Hn) & Hmax) Hi Hpos Hok. subst m j.
  destruct (nth_error fs 0) as [f|] eqn:Ef.
  2:{ apply nth_error_None in Ef. exfalso. lia. }
  assert (Hf : forall w, snd (f ctx w) = None)
    by (intros w0; apply Hok; eapply nth_error_In; exact Ef).
  revert w t. induction rounds as [|rounds IH]; intros w t.
  - exists (mkState (mkCloser false fs n 0) w t), []. simpl.
    rewrite app_nil_r. repeat split; reflexivity.
  - cbn [bench_loop]. unfold bind at 1.
    rewrite (CloseOne_next ctx fs n 0 w t f) by (assumption || lia).
    rewrite Hf. unfold bind at 1. rewrite reset_step.
    match goal with |- context [bench_loop _ rounds (mkState _ ?w1 ?t1)] =>
      destruct (IH w1 t1) as (s' & new & E & Hc & Hslots & Hcl)
    end.
    exists s', ((O, None) :: new). split; [exact E|]. split.
    { rewrite Hc, !calls_of_app. simpl. rewrite app_nil_r, <- app_assoc.
      reflexivity. }
    split; [|exact Hcl].
    cbn [map fst repeat]. f_equal. exact Hslots.
Qed.

Lemma Benchmark_CloseOne_runs_the_first_callback_only_witness :
  exists s' new,
    bench_loop (CloseOne tt) 3 two_ok = Done None s' /\
    calls_of (trace s') = calls_of (trace two_ok) ++ new /\
    map fst new = repeat O 3 /\
    cl s' = cl two_ok.
Proof.
  apply (Benchmark_CloseOne_runs_the_first_callback_only tt 3
           two_ok).
  - by_compute.
  - reflexivity.
  - by_compute.
  - intros f w Hin. vm_compute in Hin.
    destruct Hin as [E|[E|[]]]; subst f; reflexivity.
Defined.

(** On the empty registry the first round of either benchmark meets the
    exhaustion error. *)
Example Benchmark_on_empty_registry :
  returned (bench_loop (Sub.Close tt) 5 fresh) =
    Some (Some "closer.Close: all services closed"%string) /\
  returned (bench_loop (CloseOne tt) 5 fresh) =
    Some (Some "closer.CloseOne: all services closed"%string).
Proof. split; reflexivity. Qed.

(** ** The mocks of the tests *)

Lemma nth_error_mocks (n slot : nat) :
  (slot < n)%nat ->
  nth_error (map mock_close (seq 0 n)) slot = Some (mock_close slot).
Proof.
  intros H. rewrite nth_error_map, nth_error_seq.
  destruct (Nat.ltb_spec slot n); [reflexivity|lia].
Qed.

Lemma run_order_mocks (ctx : Context) (n : nat) (order : list nat) :
  (forall slot, In slot order -> (slot < n)%nat) ->
  forall counts,
    run_order ctx (map mock_close (seq 0 n)) order counts =
    (fold_left bump order counts, map (fun k => (k, mock_result ctx)) order).
Proof.
  induction order as [|slot order IH]; intros Hin counts.
  - reflexivity.
  - cbn [run_order]. rewrite nth_error_mocks by (apply Hin; left; reflexivity).
    rewrite IH by (intros sl Hsl; apply Hin; right; exact Hsl).
    reflexivity.
Qed.

Lemma bump_counts (order : list nat) :
  forall counts,
    (forall slot, In slot order -> (slot < length counts)%nat) ->
    length (fold_left bump order counts) = length counts /\
    forall j, nth j (fold_left bump order counts) O =
              (nth j counts O + count_occ Nat.eq_dec order j)%nat.
Proof.
  induction order as [|k order IH]; intros counts Hin.
  - split; [reflexivity|]. intros j. simpl. lia.
  - cbn [fold_left].
    assert (Hk : (k < length counts)%nat) by (apply Hin; left; reflexivity).
    destruct (IH (bump counts k)) as [Hlen Hnth].
    { intros sl Hsl. unfold bump. rewrite length_set_nth.
      apply Hin. right. exact Hsl. }
    assert (Hb : length (bump counts k) = length counts)
      by (unfold bump; apply length_set_nth).
    rewrite Hb in Hlen.
    split; [exact Hlen|]. intros j. rewrite Hnth.
    assert (Hn : nth j (bump counts k) O =
                 if Nat.eqb j k
                 then (if Nat.ltb k (length counts) then S (nth k counts O) else O)
                 else nth j counts O)
      by (unfold bump; apply nth_set_nth).
    rewrite Hn.
    destruct (Nat.eqb_spec j k) as [E|E].
    + subst j. destruct (Nat.ltb_spec k (length counts)); [|lia].
      rewrite count_occ_cons_eq by reflexivity. lia.
    + rewrite count_occ_cons_neq by congruence. reflexivity.
Qed.

Lemma mock_registry_eq (n : nat) :
  Z.of_nat n <= int_max ->
  exists t,
    mock_registry n =
      mkState (mkCloser false (map mock_close (seq 0 n)) (Z.of_nat n) 0)
              (repeat O n) t /\
    calls_of t = [].
Proof.
  intros Hmax. unfold mock_registry, zero.
  destruct (Add_all_spec (map mock_close (seq 0 n)) [] 0 0 (repeat O n) [])
    as (t & E & Hc); try lia.
  { rewrite length_map, length_seq. lia. }
  rewrite E. rewrite length_map, length_seq in *. simpl.
  exists t. split; [reflexivity|exact Hc].
Qed.

Lemma all_called_once (n : nat) (order : list nat) :
  Permutation order (seq 0 n) ->
  fold_left bump order (repeat O n) = repeat 1%nat n.
Proof.
  intros Hperm.
  destruct (bump_counts order (repeat O n)) as [Hlen Hnth].
  { intros slot Hin. apply (Permutation_in _ Hperm) in Hin.
    apply in_seq in Hin. rewrite repeat_length. lia. }
  rewrite repeat_length in Hlen.
  apply (nth_ext _ _ O 1%nat).
  - rewrite Hlen, repeat_length. reflexivity.
  - intros j Hj. rewrite Hlen in Hj.
    rewrite Hnth, !nth_repeat_lt by exact Hj.
    assert (Hocc := proj1 (Permutation_count_occ Nat.eq_dec order (seq 0 n)) Hperm j).
    rewrite Hocc.
    apply (proj1 (NoDup_count_occ' Nat.eq_dec (seq 0 n)) (seq_NoDup n 0)).
    apply in_seq. lia.
Qed.

Lemma first_called_once (n j : nat) :
  (j <= n)%nat ->
  fold_left bump (seq 0 j) (repeat O n) = repeat 1%nat j ++ repeat O (n - j).
Proof.
  intros Hj.
  destruct (bump_counts (seq 0 j) (repeat O n)) as [Hlen Hnth].
  { intros slot Hin. apply in_seq in Hin. rewrite repeat_length. lia. }
  rewrite repeat_length in Hlen.
  apply (nth_ext _ _ O O).
  - rewrite Hlen, length_app, !repeat_length. lia.
  - intros k Hk. rewrite Hlen in Hk.
    rewrite Hnth, nth_repeat_lt by exact Hk.
    destruct (Nat.lt_ge_cases k j) as [Hlt|Hge].
    + rewrite app_nth1 by (rewrite repeat_length; exact Hlt).
      rewrite nth_repeat_lt by exact Hlt.
      apply (proj1 (NoDup_count_occ' Nat.eq_dec (seq 0 j)) (seq_NoDup j 0)).
      apply in_seq. lia.
    + rewrite app_nth2 by (rewrite repeat_length; exact Hge).
      rewrite repeat_length, nth_repeat_lt by lia.
      apply count_occ_not_In. intros Hin. apply in_seq in Hin. lia.
Qed.

(** X9: the tests of [Close] with mocks, for any number [n >= 1] of mocks,
    any order of the goroutines and any context: after [Close] every
    [calledCount] is 1; the error is nil under a context that is not done,
    and under a done context whose [Err()] has the text [m] it is
    "closer.Close: " and [n] times [m] joined by "; ", which contains [m];
    a [CloseOne] or a second [Close] afterwards returns the exhaustion
    error and calls no mock. *)
Theorem mocks_closed_by_Close (n : nat) (oracle : list nat) (ctx : Context) :
  (0 < n)%nat ->
  Z.of_nat n <= int_max ->
  exists e s',
    Root.Close oracle ctx (mock_registry n) = Done e s' /\
    world s' = repeat 1%nat n /\
    (ctx_done ctx = false -> e = None) /\
    (forall m, ctx_done ctx = true -> ctx_err ctx = Some m ->
       e = Some ("closer.Close: " ++ Join (repeat m n) "; ")%string /\
       Contains ("closer.Close: " ++ Join (repeat m n) "; ") m = true) /\
    (exists s'',
       CloseOne ctx s' =
         Done (Errorf "closer.CloseOne" ErrAllServicesClosed) s'' /\
       world s'' = repeat 1%nat n) /\
    (exists s'',
       Root.Close oracle ctx s' =
         Done (Errorf "closer.Close" ErrAllServicesClosed) s'' /\
       world s'' = repeat 1%nat n).
Proof.
  intros Hpos Hmax.
  destruct (mock_registry_eq n Hmax) as (t & E & Ht). rewrite E.
  rewrite Root_Close_run by (rewrite ?length_map, ?length_seq; lia).
  rewrite length_map, length_seq. simpl Z.to_nat. rewrite Nat.sub_0_r.
  set (order := order_of oracle 0 n).
  assert (Hperm : Permutation order (seq 0 n)) by apply order_of_perm.
  assert (Hvalid : forall slot, In slot order -> (slot < n)%nat).
  { intros slot Hin. apply (Permutation_in _ Hperm) in Hin.
    apply in_seq in Hin. lia. }
  rewrite run_order_mocks by exact Hvalid. cbn [fst snd].
  set (calls := map (fun k => (k, mock_result ctx)) order).
  assert (Hkeys : map fst calls = order).
  { unfold calls. rewrite map_map. simpl. apply map_id. }
  assert (Hmsgs : Permutation (in_slot_order calls 0 n)
                    (flat_map (fun r => msg_of (snd r)) calls)).
  { apply in_slot_order_perm. rewrite Hkeys. exact Hperm. }
  assert (Hlen : length order = n)
    by (rewrite (Permutation_length Hperm); apply length_seq).
  do 2 eexists. split; [reflexivity|]. cbn [world cl].
  split; [apply all_called_once; exact Hperm|].
  split.
  { intros Hdone.
    assert (Hnil : flat_map (fun r => msg_of (snd r)) calls = []).
    { unfold calls, mock_result. rewrite Hdone. clear.
      induction order; simpl; auto. }
    rewrite Hnil in Hmsgs. apply Permutation_sym, Permutation_nil in Hmsgs.
    rewrite Hmsgs. reflexivity. }
  split.
  { intros m Hdone Herr.
    assert (Hall : flat_map (fun r => msg_of (snd r)) calls = repeat m n).
    { unfold calls, mock_result. rewrite Hdone, Herr, <- Hlen. clear.
      induction order; simpl; congruence. }
    rewrite Hall in Hmsgs. apply Permutation_repeat in Hmsgs.
    rewrite Hmsgs.
    assert (Hin : In m (repeat m n)) by (destruct n; [lia|left; reflexivity]).
    split.
    - destruct (repeat m n); [contradiction|reflexivity].
    - destruct (Join_contains "; " m (repeat m n) Hin) as (a & b & EJ).
      apply Contains_spec. exists ("closer.Close: " ++ a)%string, b.
      rewrite EJ, sapp_assoc. reflexivity. }
  split.
  - rewrite CloseOne_exhausted by lia. eexists.
    split; [reflexivity|]. cbn [world]. apply all_called_once. exact Hperm.
  - rewrite Root_Close_exhausted by lia. eexists.
    split; [reflexivity|]. cbn [world]. apply all_called_once. exact Hperm.
Qed.

Lemma mocks_closed_by_Close_witness :
  exists e s',
    Root.Close [2%nat; 0%nat] Canceled (mock_registry 3) = Done e s' /\
    world s' = repeat 1%nat 3 /\
    (ctx_done Canceled = false -> e = None) /\
    (forall m, ctx_done Canceled = true -> ctx_err Canceled = Some m ->
       e = Some ("closer.Close: " ++ Join (repeat m 3) "; ")%string /\
       Contains ("closer.Close: " ++ Join (repeat m 3) "; ") m = true) /\
    (exists s'',
       CloseOne Canceled s' =
         Done (Errorf "closer.CloseOne" ErrAllServicesClosed) s'' /\
       world s'' = repeat 1%nat 3) /\
    (exists s'',
       Root.Close [2%nat; 0%nat] Canceled s' =
         Done (Errorf "closer.Close" ErrAllServicesClosed) s'' /\
       world s'' = repeat 1%nat 3).
Proof.
  apply (mocks_closed_by_Close 3 [2%nat; 0%nat] Canceled).
  - lia.
  - by_compute.
Defined.

(** X10: the tests of [CloseOne] with mocks, for any number [n] of mocks
    and any context: after [j <= n] calls the first [j] mocks have
    [calledCount] 1 and the others 0, and every call returned what the mock
    returns under the context (nil, or [ctx.Err()] once the context is
    done); after [n] calls one more call returns the exhaustion error and
    calls no mock. *)
Theorem mocks_closed_one_by_one (n j : nat) (ctx : Context) :
  (j <= n)%nat ->
  Z.of_nat n <= int_max ->
  exists s',
    CloseOne_n j ctx (mock_registry n) = Done (repeat (mock_result ctx) j) s' /\
    world s' = repeat 1%nat j ++ repeat O (n - j) /\
    (j = n ->
     exists s'',
       CloseOne ctx s' =
         Done (Errorf "closer.CloseOne" ErrAllServicesClosed) s'' /\
       world s'' = repeat 1%nat n).
Proof.
  intros Hj Hmax.
  destruct (mock_registry_eq n Hmax) as (t & E & Ht). rewrite E.
  destruct (CloseOne_n_spec ctx (map mock_close (seq 0 n)) (Z.of_nat n) j 0
              (repeat O n) t) as (t' & Erun & _);
    try (rewrite ?length_map, ?length_seq; lia).
  simpl Z.to_nat in Erun.
  rewrite run_order_mocks in Erun
    by (intros slot Hin; apply in_seq in Hin; lia).
  cbn [fst snd] in Erun. rewrite map_map in Erun. cbn [snd] in Erun.
  rewrite first_called_once in Erun by exact Hj.
  assert (Hres : map (fun _ : nat => mock_result ctx) (seq 0 j) =
                 repeat (mock_result ctx) j).
  { clear. generalize 0%nat. induction j; intros a; simpl; [|rewrite IHj];
      reflexivity. }
  rewrite Hres in Erun. rewrite Erun.
  eexists. split; [reflexivity|]. cbn [world].
  split; [reflexivity|].
  intros Hjn. subst j.
  rewrite CloseOne_exhausted by lia.
  eexists. split; [reflexivity|]. cbn [world].
  rewrite Nat.sub_diag. simpl. apply app_nil_r.
Qed.

Lemma mocks_closed_one_by_one_witness :
  exists s',
    CloseOne_n 2 Canceled (mock_registry 3) =
      Done (repeat (mock_result Canceled) 2) s' /\
    world s' = repeat 1%nat 2 ++ repeat O (3 - 2) /\
    (2%nat = 3%nat ->
     exists s'',
       CloseOne Canceled s' =
         Done (Errorf "closer.CloseOne" ErrAllServicesClosed) s'' /\
       world s'' = repeat 1%nat 3).
Proof.
  apply (mocks_closed_one_by_one 3 2 Canceled).
  - lia.
  - by_compute.
Defined.

(** ** How the operations compose *)

(** X11: after an [Add], the next [CloseOne] never finds the registry
    exhausted: it invokes the oldest unclosed callback and returns its
    error; that callback is the one just added exactly when the registry
    was exhausted before the [Add]. *)
Theorem Add_then_CloseOne_closes_the_oldest_unclosed {Ctx World : Type}
    (f : Func Ctx World) (ctx : Ctx) (s : State Ctx World) :
  wf (cl s) ->
  size (cl s) < int_max ->
  exists g e s',
    bind (Add f) (fun _ => CloseOne ctx) s = Done e s' /\
    nth_error (funcs (cl s) ++ [f]) (Z.to_nat (i (cl s))) = Some g /\
    e = snd (g ctx (world s)) /\
    world s' = fst (g ctx (world s)) /\
    calls_of (trace s') = calls_of (trace s) ++ [(Z.to_nat (i (cl s)), e)] /\
    (i (cl s) = size (cl s) -> g = f) /\
    (i (cl s) < size (cl s) ->
     nth_error (funcs (cl s)) (Z.to_nat (i (cl s))) = Some g) /\
    i (cl s') = i (cl s) + 1 /\
    size (cl s') = size (cl s) + 1.
Proof.
  destruct s as [[m fs n k] w t]. unfold wf, inv. simpl.
  intros (Hm & (Hk & Hn) & _) Hmax. subst m.
  unfold bind. rewrite Add_step.
  rewrite wrap_id by (unfold int_min; lia).
  destruct (nth_error (fs ++ [f]) (Z.to_nat k)) as [g|] eqn:Eg.
  2:{ apply nth_error_None in Eg. rewrite length_app in Eg. simpl in Eg.
      exfalso. lia. }
  rewrite (CloseOne_next ctx (fs ++ [f]) (n + 1) k w _ g)
    by (assumption || lia).
  rewrite wrap_id by (unfold int_min; lia).
  exists g. do 2 eexists. split; [reflexivity|]. cbn [cl world trace i size].
  split; [reflexivity|]. split; [reflexivity|]. split; [reflexivity|].
  split.
  { rewrite !calls_of_app. simpl. rewrite app_nil_r. reflexivity. }
  split.
  { intros Hex. rewrite nth_error_app2 in Eg by lia.
    replace (Z.to_nat k - length fs)%nat with O in Eg by lia.
    simpl in Eg. congruence. }
  split.
  { intros Hlt. rewrite nth_error_app1 in Eg by lia. exact Eg. }
  split; reflexivity.
Qed.

Lemma Add_then_CloseOne_closes_the_oldest_unclosed_witness :
  exists g e s',
    bind (Add (ko "new")) (fun _ => CloseOne tt) three_closed = Done e s' /\
    nth_error (funcs (cl three_closed) ++ [ko "new"])
              (Z.to_nat (i (cl three_closed))) = Some g /\
    e = snd (g tt (world three_closed)) /\
    world s' = fst (g tt (world three_closed)) /\
    calls_of (trace s') =
      calls_of (trace three_closed) ++ [(Z.to_nat (i (cl three_closed)), e)] /\
    (i (cl three_closed) = size (cl three_closed) -> g = ko "new") /\
    (i (cl three_closed) < size (cl three_closed) ->
     nth_error (funcs (cl three_closed)) (Z.to_nat (i (cl three_closed))) = Some g) /\
    i (cl s') = i (cl three_closed) + 1 /\
    size (cl s') = size (cl three_closed) + 1.
Proof.
  apply (Add_then_CloseOne_closes_the_oldest_unclosed (ko "new") tt three_closed).
  - by_compute.
  - by_compute.
Defined.

(** X12: [Close] called in line ([src/closer/closer.go]), and [Close] of
    [src/closer.go] when its goroutines run by increasing slot, do to the
    callbacks and to the registry what [CloseOne] called until exhaustion
    does: the same invocations in the same order, the same world, the same
    struct; and the error of [Close] is nil when all these [CloseOne] calls
    return nil, and otherwise joins the texts of the errors they return:
    it is "closer.Close: " and [String.concat "; "] of these texts. *)
Theorem Close_is_CloseOne_until_exhaustion {Ctx World : Type} (ctx : Ctx)
    (s : State Ctx World) :
  wf (cl s) ->
  i (cl s) < size (cl s) ->
  let k := Z.to_nat (size (cl s) - i (cl s)) in
  exists errs s1 e s2 s3,
    CloseOne_n k ctx s = Done errs s1 /\
    Sub.Close ctx s = Done e s2 /\
    Root.Close [] ctx s = Done e s3 /\
    e = report (flat_map msg_of errs) /\
    calls_of (trace s2) = calls_of (trace s1) /\
    calls_of (trace s3) = calls_of (trace s1) /\
    world s2 = world s1 /\ world s3 = world s1 /\
    cl s2 = cl s1 /\ cl s3 = cl s1 /\
    (flat_map msg_of errs = [] -> e = None) /\
    (forall m ms, flat_map msg_of errs = m :: ms ->
       e = Some ("closer.Close: " ++ String.concat "; " (m :: ms))%string).
Proof.
  destruct s as [[m fs n j] w t]. unfold wf, inv. simpl.
  intros (Hm & (Hj & Hn) & Hmax) Hlt. subst m.
  replace (Z.to_nat (n - j)) with (length fs - Z.to_nat j)%nat by lia.
  set (lo := Z.to_nat j). set (k := (length fs - lo)%nat).
  destruct (CloseOne_n_spec ctx fs n k j w t) as (t' & Erun & Ecalls);
    try (unfold k, lo; lia).
  fold lo in Erun, Ecalls.
  rewrite Erun, Sub_Close_run, Root_Close_run by lia.
  fold lo. fold k. rewrite order_of_in_order.
  set (wr := run_order ctx fs (seq lo k) w) in *.
  assert (Hkeys : map fst (snd wr) = seq lo k).
  { apply map_fst_run_order. intros slot Hin. apply in_seq in Hin.
    unfold k, lo in Hin. lia. }
  rewrite (in_slot_order_in_order (snd wr) lo k Hkeys).
  do 5 eexists. split; [reflexivity|]. split; [reflexivity|].
  split; [reflexivity|]. cbn [cl world trace].
  assert (Herrs : flat_map (fun r => msg_of (snd r)) (snd wr) =
                  flat_map msg_of (map snd (snd wr))).
  { clear. induction (snd wr) as [|[slot res] l IH]; simpl.
    - reflexivity.
    - rewrite IH. reflexivity. }
  rewrite Herrs.
  split; [reflexivity|].
  unfold call_events. rewrite !calls_of_run by reflexivity. rewrite Ecalls.
  repeat (split; [reflexivity|]).
  split; [f_equal; unfold k, lo; lia|].
  split; [f_equal; unfold k, lo; lia|].
  split.
  - intros Hnone. rewrite Hnone. reflexivity.
  - intros m0 ms Hsome. rewrite Hsome, <- Join_concat. reflexivity.
Qed.

Lemma Close_is_CloseOne_until_exhaustion_witness :
  let k := Z.to_nat (size (cl three) - i (cl three)) in
  exists errs s1 e s2 s3,
    CloseOne_n k tt three = Done errs s1 /\
    Sub.Close tt three = Done e s2 /\
    Root.Close [] tt three = Done e s3 /\
    e = report (flat_map msg_of errs) /\
    calls_of (trace s2) = calls_of (trace s1) /\
    calls_of (trace s3) = calls_of (trace s1) /\
    world s2 = world s1 /\ world s3 = world s1 /\
    cl s2 = cl s1 /\ cl s3 = cl s1 /\
    (flat_map msg_of errs = [] -> e = None) /\
    (forall m ms, flat_map msg_of errs = m :: ms ->
       e = Some ("closer.Close: " ++ String.concat "; " (m :: ms))%string).
Proof.
  apply (Close_is_CloseOne_until_exhaustion tt three).
  - by_compute.
  - by_compute.
Defined.

(** ** The methods that lock *)

(** X13: [Add], [Close] of both files and [reset] read and write the
    fields of the struct between their [Lock] and their [Unlock] only, and
    so does a [CloseOne] that finds the registry exhausted; each of them
    leaves the mutex free. *)
Theorem locking_methods_touch_the_fields_under_the_mutex {Ctx World : Type}
    (f : Func Ctx World) (oracle : list nat) (ctx : Ctx) (s : State Ctx World) :
  wf (cl s) ->
  guarded false (events_of (Add f) s) = true /\
  guarded false (events_of (Root.Close oracle ctx) s) = true /\
  guarded false (events_of (Sub.Close ctx) s) = true /\
  guarded false (events_of Sub.reset s) = true /\
  (size (cl s) <= i (cl s) ->
   guarded false (events_of (CloseOne ctx) s) = true) /\
  mu (cl (final (Add f s))) = false /\
  mu (cl (final (Root.Close oracle ctx s))) = false /\
  mu (cl (final (Sub.Close ctx s))) = false /\
  mu (cl (final (Sub.reset s))) = false /\
  mu (cl (final (CloseOne ctx s))) = false.
Proof.
  intros Hwf.
  split; [apply Add_is_guarded; apply Hwf|].
  split; [apply Close_is_guarded; exact Hwf|].
  destruct s as [[m fs n k] w t]. unfold wf, inv in Hwf. simpl in Hwf.
  destruct Hwf as (Hm & (Hk & Hn) & Hmax). subst m. unfold events_of.
  cbn [trace cl size i].
  rewrite Add_step, reset_step. cbn [final trace cl mu].
  rewrite !skipn_length_app.
  destruct (Z.lt_ge_cases k n) as [Hlt|Hge].
  - destruct (nth_error fs (Z.to_nat k)) as [g|] eqn:E.
    2:{ apply nth_error_None in E. exfalso. lia. }
    rewrite Sub_Close_run, Root_Close_run,
      (CloseOne_next ctx fs n k w t g) by (assumption || lia).
    cbn [final trace cl mu]. rewrite skipn_length_app.
    cbn [app guarded andb]. unfold call_events.
    rewrite guarded_call_events.
    repeat split; try reflexivity. intros Hex. exfalso. lia.
  - rewrite Sub_Close_exhausted, Root_Close_exhausted, CloseOne_exhausted
      by lia.
    cbn [final trace cl mu]. rewrite !skipn_length_app.
    repeat split; reflexivity.
Qed.

Lemma locking_methods_touch_the_fields_under_the_mutex_witness :
  guarded false (events_of (Add ok) three) = true /\
  guarded false (events_of (Root.Close [1%nat] tt) three) = true /\
  guarded false (events_of (Sub.Close tt) three) = true /\
  guarded false (events_of Sub.reset three) = true /\
  (size (cl three) <= i (cl three) ->
   guarded false (events_of (CloseOne tt) three) = true) /\
  mu (cl (final (Add ok three))) = false /\
  mu (cl (final (Root.Close [1%nat] tt three))) = false /\
  mu (cl (final (Sub.Close tt three))) = false /\
  mu (cl (final (Sub.reset three))) = false /\
  mu (cl (final (CloseOne tt three))) = false.
Proof.
  apply (locking_methods_touch_the_fields_under_the_mutex ok [1%nat] tt three).
  by_compute.
Defined.

(** ** The tests with several goroutines *)

Lemma called_once_perm (n m : nat) (order : list nat) :
  Permutation order (seq 0 m) ->
  (m <= n)%nat ->
  fold_left bump order (repeat O n) = repeat 1%nat m ++ repeat O (n - m).
Proof.
  intros Hperm Hm.
  destruct (bump_counts order (repeat O n)) as [Hlen Hnth].
  { intros slot Hin. apply (Permutation_in _ Hperm) in Hin.
    apply in_seq in Hin. rewrite repeat_length. lia. }
  rewrite repeat_length in Hlen.
  assert (Hocc : forall k, count_occ Nat.eq_dec order k =
                           count_occ Nat.eq_dec (seq 0 m) k)
    by (apply Permutation_count_occ; exact Hperm).
  apply (nth_ext _ _ O O).
  - rewrite Hlen, length_app, !repeat_length. lia.
  - intros k Hk. rewrite Hlen in Hk.
    rewrite Hnth, Hocc, nth_repeat_lt by exact Hk.
    destruct (Nat.lt_ge_cases k m) as [Hlt|Hge].
    + rewrite app_nth1 by (rewrite repeat_length; exact Hlt).
      rewrite nth_repeat_lt by exact Hlt.
      apply (proj1 (NoDup_count_occ' Nat.eq_dec (seq 0 m)) (seq_NoDup m 0)).
      apply in_seq. lia.
    + rewrite app_nth2 by (rewrite repeat_length; exact Hge).
      rewrite repeat_length, nth_repeat_lt by lia.
      apply count_occ_not_In. intros Hin. apply in_seq in Hin. lia.
Qed.

(** Callers of [CloseOne] on a registry of mocks, all under the context
    [ctx], no more callers than unclosed mocks: every caller that returns
    returns what the mock returns, and the world counts the invocations. *)
Lemma run_steps_mocks (n : nat) (ctx : Context)
    (steps : list (step (Ctx:=Context) (World:=list nat))) :
  Z.of_nat n <= int_max ->
  forall inside k w t,
    wholes steps = [] ->
    same_context ctx steps ->
    0 <= k ->
    k + Z.of_nat (enters steps) <= Z.of_nat n ->
    Forall (fun c : caller =>
              fst c = ctx /\ snd (snd c) = None /\
              0 <= fst (snd c) < Z.of_nat n) inside ->
    exists inside' rs s' new,
      run_steps steps inside
        (mkState (mkCloser false (map mock_close (seq 0 n)) (Z.of_nat n) k) w t)
        = Done (inside', rs) s' /\
      calls_of (trace s') = calls_of t ++ new /\
      world s' = fold_left bump (map fst new) w /\
      Forall (fun r => r = RErr (mock_result ctx)) rs /\
      (length rs + length inside' = length inside + enters steps)%nat.
Proof.
  intros Hmax.
  induction steps as [|st steps IH]; intros inside k w t Hnil Hctx Hk Hen Hin.
  - exists inside, [], (mkState (mkCloser false (map mock_close (seq 0 n))
                                   (Z.of_nat n) k) w t), [].
    cbn [run_steps enters]. unfold ret. rewrite app_nil_r. simpl.
    repeat split; auto; lia.
  - destruct st as [c|pick|o]; [| |discriminate Hnil].
    + cbn [run_steps wholes enters] in *.
      inversion Hctx as [|x l Hc Hrest]; subst x l. subst c.
      unfold bind at 1. rewrite reserve_next by lia.
      rewrite wrap_id by (unfold int_min; lia).
      match goal with |- context [run_steps steps ?l (mkState _ ?w1 ?t1)] =>
        destruct (IH l (k + 1) w1 t1)
          as (inside' & rs & s' & new & E & Hcalls & Hw & Hrs & Hlen)
      end; try assumption; try lia.
      { apply Forall_app. split; [exact Hin|].
        constructor; [|constructor]. simpl. repeat split; lia. }
      exists inside', rs, s', new. split; [exact E|]. split.
      { rewrite Hcalls, calls_of_app. simpl. rewrite app_nil_r. reflexivity. }
      split; [exact Hw|]. split; [exact Hrs|].
      rewrite length_app in Hlen. simpl in Hlen. lia.
    + cbn [run_steps wholes enters] in *.
      inversion Hctx as [|x l _ Hrest]; subst x l.
      destruct inside as [|c0 inside0].
      { apply IH; assumption. }
      cbv beta iota zeta.
      set (inside := c0 :: inside0) in *.
      set (p := Nat.modulo pick (length inside)).
      assert (Hp_lt : (p < length inside)%nat)
        by (apply Nat.mod_upper_bound; unfold inside; simpl; lia).
      assert (Hc_in : In (nth p inside c0) inside)
        by (apply nth_In; exact Hp_lt).
      assert (Hin' : Forall (fun c : caller =>
                fst c = ctx /\ snd (snd c) = None /\
                0 <= fst (snd c) < Z.of_nat n) (remove_nth p inside)).
      { rewrite Forall_forall in *. intros x Hx. apply Hin.
        eapply in_remove_nth. exact Hx. }
      rewrite Forall_forall in Hin.
      destruct (Hin _ Hc_in) as (Hcx & Hlive & Hprev).
      destruct (nth p inside c0) as [cx [prev e]]. simpl in Hcx, Hlive, Hprev.
      subst cx e.
      assert (Hinv := invoke_slot ctx
                (mkCloser false (map mock_close (seq 0 n)) (Z.of_nat n) k)
                w t prev (mock_close (Z.to_nat prev)) (proj1 Hprev)
                (nth_error_mocks n (Z.to_nat prev) ltac:(lia))).
      unfold bind at 1. cbn [fst snd].
      match goal with
      | |- context [invoke ?a ?b ?st] =>
          change (invoke a b st)
            with (invoke ctx (prev, None)
                    (mkState (mkCloser false (map mock_close (seq 0 n))
                                (Z.of_nat n) k) w t))
      end.
      rewrite Hinv. clear Hinv. cbv beta iota.
      destruct (IH (remove_nth p inside) k
                  (fst (mock_close (Z.to_nat prev) ctx w))
                  (t ++ [EvRead Ffuncs;
                         EvCall (Z.to_nat prev)
                                (snd (mock_close (Z.to_nat prev) ctx w))]))
        as (inside' & rs & s' & new & E & Hcalls & Hw & Hrs & Hlen);
        try assumption.
      exists inside', (RErr (mock_result ctx) :: rs), s',
             ((Z.to_nat prev, mock_result ctx) :: new).
      unfold bind at 1. rewrite E.
      split; [reflexivity|]. split.
      { rewrite Hcalls, calls_of_app. simpl. rewrite <- app_assoc.
        reflexivity. }
      split; [exact Hw|]. split; [constructor; [reflexivity|exact Hrs]|].
      rewrite length_remove_nth in Hlen by exact Hp_lt.
      unfold inside in *. cbn [length] in *. lia.
Qed.

(** X14: the tests with several goroutines, for [n] mocks and any number
    [m <= n] of goroutines that call [CloseOne] under the same context,
    interleaved in any way: every call that has returned returned what the
    mock returns under the context (nil under [Background], the error of
    the context once it is done), none the exhaustion error; and when all
    have returned there are [m] results and the first [m] mocks have
    [calledCount] 1, the others 0. *)
Theorem mocks_closed_by_concurrent_CloseOne (n : nat) (ctx : Context)
    (steps : list (step (Ctx:=Context) (World:=list nat))) :
  Z.of_nat n <= int_max ->
  wholes steps = [] ->
  same_context ctx steps ->
  (enters steps <= n)%nat ->
  exists inside rs s',
    run_steps steps [] (mock_registry n) = Done (inside, rs) s' /\
    Forall (fun r => r = RErr (mock_result ctx)) rs /\
    (length rs + length inside = enters steps)%nat /\
    (inside = [] ->
     world s' = repeat 1%nat (enters steps) ++ repeat O (n - enters steps)).
Proof.
  intros Hmax Hnil Hctx Hen.
  destruct (mock_registry_eq n Hmax) as (t & E & Ht).
  assert (Hwf : wf (cl (mock_registry n))).
  { rewrite E. unfold wf, inv. simpl. rewrite length_map, length_seq. lia. }
  destruct (run_steps_inv steps [] (mock_registry n) Hwf)
    as (inside1 & rs1 & s1 & new1 & E1 & _ & _ & Hc1 & Hp1 & Hw1).
  { rewrite Hnil, E. simpl. lia. }
  { constructor. }
  destruct (Hw1 Hnil) as (_ & _ & Hi1).
  rewrite E in E1, Hc1, Hp1, Hi1. cbn [cl size i trace] in *.
  destruct (run_steps_mocks n ctx steps Hmax [] 0 (repeat O n) t)
    as (inside & rs & s' & new & E2 & Hc2 & Hw2 & Hrs & Hlen);
    try assumption; try lia.
  { constructor. }
  rewrite E. rewrite E2 in E1. inversion E1; subst inside1 rs1 s1.
  rewrite Hc2 in Hc1. apply app_inv_head in Hc1. subst new1.
  exists inside, rs, s'. split; [exact E2|]. split; [exact Hrs|].
  split; [simpl in Hlen; exact Hlen|].
  intros Hin. subst inside. simpl in Hp1. rewrite app_nil_r in Hp1.
  rewrite Hw2. apply called_once_perm; [|exact Hen].
  replace (Z.to_nat (i (cl s') - 0)) with (enters steps) in Hp1 by lia.
  exact Hp1.
Qed.

Lemma mocks_closed_by_concurrent_CloseOne_witness :
  exists inside rs s',
    run_steps [Enter Canceled; Enter Canceled; Leave 1; Enter Canceled;
               Leave 1; Leave 0] [] (mock_registry 3) = Done (inside, rs) s' /\
    Forall (fun r => r = RErr (mock_result Canceled)) rs /\
    (length rs + length inside =
     enters [Enter Canceled; Enter Canceled; Leave 1; Enter Canceled;
             Leave 1; Leave 0 : step (Ctx:=Context) (World:=list nat)])%nat /\
    (inside = [] ->
     world s' =
     repeat 1%nat (enters [Enter Canceled; Enter Canceled; Leave 1;
                           Enter Canceled; Leave 1; Leave 0
                           : step (Ctx:=Context) (World:=list nat)]) ++
     repeat O (3 - enters [Enter Canceled; Enter Canceled; Leave 1;
                           Enter Canceled; Leave 1; Leave 0
                           : step (Ctx:=Context) (World:=list nat)])).
Proof.
  apply (mocks_closed_by_concurrent_CloseOne 3 Canceled
           [Enter Canceled; Enter Canceled; Leave 1; Enter Canceled;
            Leave 1; Leave 0]).
  - by_compute.
  - reflexivity.
  - unfold same_context. repeat constructor.
  - simpl. lia.
Defined.
